(** * WaveSurfer.Drawer.CanvasPitch: the pitch overlay of the canvas drawer

    A shallow embedding of [src/drawer.canvaspitch.js]: the loader
    ([initDrawer], [loadPitchArrayFromFile]), the aggregation of the pitch
    series into pixel columns ([calculatePitches], [calculatePitchTimeEnd],
    [avg]), the normalisation ([normalizePitches]) and the wait for the
    series before drawing ([drawPeaks]).

    JavaScript numbers are modelled by [number]: exact rationals extended
    with [NaN] and the two infinities.  The special values follow IEEE 754
    (what [0/0], [x/0], [parseFloat "a"] and comparisons with [NaN] give);
    rounding to 53 bits, overflow and the sign of zero are outside the
    model. *)

From Stdlib Require Import QArith Qcanon Qround ZArith String Ascii List Lqa.
From stdpp Require Import base numbers option list strings countable gmap fin_maps.

Local Open Scope Z_scope.

(** ** Numbers *)

Inductive number : Type :=
  | NaN
  | NegInf
  | PosInf
  | Fin (q : Qc).

Module Num.

Definition of_Z (z : Z) : number := Fin (Qc_of_Z z).
Definition of_nat (n : nat) : number := of_Z (Z.of_nat n).
(** [frac n d] is the number [n / d]. *)
Definition frac (n : Z) (d : positive) : number := Fin (Q2Qc (n # d)).


Definition is_finite (a : number) : bool :=
  match a with Fin _ => true | _ => false end.

(** Unary minus. *)
Definition neg (a : number) : number :=
  match a with
  | NaN => NaN
  | NegInf => PosInf
  | PosInf => NegInf
  | Fin q => Fin (- q)%Qc
  end.

(** [a + b] *)
Definition add (a b : number) : number :=
  match a, b with
  | NaN, _ | _, NaN => NaN
  | PosInf, NegInf | NegInf, PosInf => NaN
  | PosInf, _ | _, PosInf => PosInf
  | NegInf, _ | _, NegInf => NegInf
  | Fin x, Fin y => Fin (x + y)%Qc
  end.

(** [a - b] *)
Definition sub (a b : number) : number := add a (neg b).

(** The infinity of the sign of [q * s], where [s] is [1] for
    [negative = false] and [-1] otherwise; [NaN] when [q] is zero. *)
Definition inf_times (negative : bool) (q : Qc) : number :=
  match (q ?= 0)%Qc with
  | Eq => NaN
  | Gt => if negative then NegInf else PosInf
  | Lt => if negative then PosInf else NegInf
  end.

(** [a * b] *)
Definition mul (a b : number) : number :=
  match a, b with
  | NaN, _ | _, NaN => NaN
  | PosInf, PosInf | NegInf, NegInf => PosInf
  | PosInf, NegInf | NegInf, PosInf => NegInf
  | PosInf, Fin y | Fin y, PosInf => inf_times false y
  | NegInf, Fin y | Fin y, NegInf => inf_times true y
  | Fin x, Fin y => Fin (x * y)%Qc
  end.

(** [a / b]; a zero divisor counts as [+0]. *)
Definition div (a b : number) : number :=
  match a, b with
  | NaN, _ | _, NaN => NaN
  | (PosInf | NegInf), (PosInf | NegInf) => NaN
  | PosInf, Fin y => if decide (y < 0)%Qc then NegInf else PosInf
  | NegInf, Fin y => if decide (y < 0)%Qc then PosInf else NegInf
  | Fin _, (PosInf | NegInf) => Fin 0%Qc
  | Fin x, Fin y =>
      if decide (y = 0)%Qc then inf_times false x else Fin (x / y)%Qc
  end.

(** The order of IEEE 754: [None] when an operand is [NaN]. *)
Definition compare (a b : number) : option comparison :=
  match a, b with
  | NaN, _ | _, NaN => None
  | NegInf, NegInf => Some Eq
  | NegInf, _ => Some Lt
  | _, NegInf => Some Gt
  | PosInf, PosInf => Some Eq
  | PosInf, _ => Some Gt
  | _, PosInf => Some Lt
  | Fin x, Fin y => Some (x ?= y)%Qc
  end.

(** [a < b], [a > b], [a <= b], [a >= b], [a === b], [a !== b] *)
Definition lt (a b : number) : bool :=
  match compare a b with Some Lt => true | _ => false end.
Definition gt (a b : number) : bool := lt b a.
Definition le (a b : number) : bool :=
  match compare a b with Some (Lt | Eq) => true | _ => false end.
Definition ge (a b : number) : bool := le b a.
Definition seq (a b : number) : bool :=
  match compare a b with Some Eq => true | _ => false end.
Definition sne (a b : number) : bool := negb (seq a b).

(** [Math.round]: the nearest integer, a tie going up. *)
Definition round (a : number) : number :=
  match a with
  | Fin q => of_Z (Qfloor (q + Q2Qc (1 # 2))%Qc)
  | _ => a
  end.

End Num.

Declare Scope num_scope.
Delimit Scope num_scope with num.
Bind Scope num_scope with number.
Infix "+" := Num.add : num_scope.
Infix "-" := Num.sub : num_scope.
Infix "*" := Num.mul : num_scope.
Infix "/" := Num.div : num_scope.
Infix "<?" := Num.lt : num_scope.
Infix ">?" := Num.gt : num_scope.
Infix "<=?" := Num.le : num_scope.
Infix ">=?" := Num.ge : num_scope.
Infix "===" := Num.seq (at level 70, no associativity) : num_scope.
Infix "!==" := Num.sne (at level 70, no associativity) : num_scope.

Global Instance number_eq_dec : EqDecision number.
Proof. solve_decision. Defined.

Global Instance number_countable : Countable number.
Proof.
  refine (inj_countable'
    (λ a, match a with
          | NaN => inl 0%nat | NegInf => inl 1%nat | PosInf => inl 2%nat
          | Fin q => inr q
          end)
    (λ s, match s with
          | inl 0%nat => NaN | inl 1%nat => NegInf | inl _ => PosInf
          | inr q => Fin q
          end) _).
  by intros [].
Defined.

(** ** Strings: what the loader uses of the built-in library *)

Local Open Scope string_scope.

(** [s.split(sep)] for a separator of one character: the fields between
    the separators, in order; a string without separator is one field. *)
Fixpoint split (sep : ascii) (s : string) : list string :=
  match s with
  | EmptyString => [EmptyString]
  | String c s' =>
      if decide (c = sep) then EmptyString :: split sep s'
      else match split sep s' with
           | f :: fs => String c f :: fs
           | [] => [String c EmptyString]
           end
  end.

Definition LF : ascii := ascii_of_nat 10.
Definition TAB : ascii := ascii_of_nat 9.

Module ParseFloat.

(** The white space and line terminators of the ASCII range. *)
Definition is_space (c : ascii) : bool :=
  let n := nat_of_ascii c in
  ((9 <=? n) && (n <=? 13) || (n =? 32))%nat.

Fixpoint trim_left (s : string) : string :=
  match s with
  | String c s' => if is_space c then trim_left s' else s
  | EmptyString => s
  end.

Definition digit (c : ascii) : option Z :=
  let n := nat_of_ascii c in
  if ((48 <=? n) && (n <=? 57))%nat then Some (Z.of_nat n - 48) else None.

(** The longest run of decimal digits at the head of [s]: its value
    continuing [acc], how many digits it has, and the rest of [s]. *)
Fixpoint digits (s : string) (acc : Z) (count : nat) : Z * nat * string :=
  match s with
  | String c s' =>
      match digit c with
      | Some v => digits s' (10 * acc + v) (S count)
      | None => (acc, count, s)
      end
  | EmptyString => (acc, count, s)
  end.

(** An optional sign: [true] for [-]. *)
Definition sign (s : string) : bool * string :=
  match s with
  | String "-" s' => (true, s')
  | String "+" s' => (false, s')
  | _ => (false, s)
  end.

(** ExponentPart, when one is there: [e] or [E], an optional sign and
    at least one digit. *)
Definition exponent (s : string) : Z :=
  match s with
  | String ("e" | "E")%char s' =>
      let '(negative, s'') := sign s' in
      let '(v, count, _) := digits s'' 0 0 in
      match count with
      | O => 0
      | S _ => if negative then - v else v
      end
  | _ => 0
  end.

(** [m * 10 ^ e] *)
Definition scale (m e : Z) : Qc :=
  if (0 <=? e)%Z then Q2Qc ((m * 10 ^ e) # 1)
  else Q2Qc (m # Z.to_pos (10 ^ (- e))).

(** The value of the longest prefix of [s] that is a
    StrUnsignedDecimalLiteral, if there is one. *)
Definition unsigned (s : string) : option number :=
  if String.prefix "Infinity" s then Some PosInf
  else
    let '(int, ni, r) := digits s 0 0 in
    match r with
    | String "." r' =>
        let '(m, nf, r'') := digits r' int 0 in
        match ni, nf with
        | O, O => None
        | _, _ => Some (Fin (scale m (exponent r'' - Z.of_nat nf)))
        end
    | _ =>
        match ni with
        | O => None
        | S _ => Some (Fin (scale int (exponent r)))
        end
    end.

(** [parseFloat(s)] *)
Definition parseFloat (s : string) : number :=
  let '(negative, s') := sign (trim_left s) in
  match unsigned s' with
  | Some v => if negative then Num.neg v else v
  | None => NaN
  end.

End ParseFloat.

Definition parseFloat := ParseFloat.parseFloat.

(** ** Data model *)

Local Open Scope list_scope.
Local Open Scope num_scope.

(** An element of [pitchArray]: [{time: ..., pitch: ...}]. *)
Record Sample : Type := { time : number; pitch : number }.

Global Instance Sample_eq_dec : EqDecision Sample.
Proof. solve_decision. Defined.

(** [this.pitches]: the averaged pitch keyed by pixel position.  The keys
    of the JavaScript object are the strings of the positions, and the
    positions are integers, [NaN] or an infinity, which all have different
    strings: the map is keyed by the number. *)
Abbreviation PixelPitchMap := (gmap number number).

(** The fields of [this.params] that the pitch code reads ([None] for
    [undefined]); the colours and the size of the markers only reach the
    canvas. *)
Module Params.
Record t : Type := {
  pitchTimeStart : number;
  pitchTimeEnd : option number;
  pitchNormalizeTo : string;
  pitchMin : number;
  pitchMax : number;
}.
End Params.

(** What the caller passes to [initDrawer]: a field is [None] when the
    object has no such key. *)
Module Options.
Record t : Type := {
  pitchArray : option (list Sample);
  pitchFileUrl : option string;
  pitchTimeStart : option number;
  pitchTimeEnd : option number;
  pitchNormalizeTo : option string;
  pitchMin : option number;
  pitchMax : option number;
}.

(** [{}] *)
Definition empty : t :=
  {| pitchArray := None; pitchFileUrl := None; pitchTimeStart := None;
     pitchTimeEnd := None; pitchNormalizeTo := None; pitchMin := None;
     pitchMax := None |}.
End Options.

(** The literal [defaultCanvasPitchParams] of the file. *)
Definition defaultCanvasPitchParams : Params.t :=
  {| Params.pitchTimeStart := Num.of_Z 0;
     Params.pitchTimeEnd := None;
     Params.pitchNormalizeTo := "values";
     Params.pitchMin := Num.of_Z 70;
     Params.pitchMax := Num.of_Z 200 |}.

(** [WaveSurfer.util.extend(dest, source)]: the keys of [source] replace
    those of [dest].  The result is [dest] itself, written in place. *)
Definition extend (dest : Params.t) (source : Options.t) : Params.t :=
  {| Params.pitchTimeStart :=
       default (Params.pitchTimeStart dest) (Options.pitchTimeStart source);
     Params.pitchTimeEnd :=
       match Options.pitchTimeEnd source with
       | Some e => Some e
       | None => Params.pitchTimeEnd dest
       end;
     Params.pitchNormalizeTo :=
       default (Params.pitchNormalizeTo dest) (Options.pitchNormalizeTo source);
     Params.pitchMin := default (Params.pitchMin dest) (Options.pitchMin source);
     Params.pitchMax := default (Params.pitchMax dest) (Options.pitchMax source) |}.

(** The arguments of a call of [drawPeaks]; a deferred redraw is the
    closure [function () { my.drawPeaks(peaks, length, start, end) }],
    which holds them. *)
Record DrawArgs : Type := {
  peaks : list number;
  length_ : number;
  start : number;
  end_ : number;
}.

(** The drawer object.  [params] is the object that [extend] writes and
    returns in [initDrawer]: [this.defaultCanvasPitchParams], which
    [this.params] is another name of from then on.  [handlers] is the
    table of the observer mixed in on the last line of the file, in the
    order of the subscriptions.  [fired], [requests] and [painted] record
    what went out: the events fired, the URLs fetched, and the map
    painted by each [drawPitches]. *)
Record Drawer : Type := {
  params : Params.t;
  pitchTimeStart : number;
  pitchTimeEnd : number;
  pitchArray : list Sample;
  pitches : PixelPitchMap;
  pitchArrayLoaded : bool;
  width : number;
  handlers : list (string * DrawArgs);
  fired : list string;
  requests : list (option string);
  painted : list PixelPitchMap;
}.

(** The object before [initDrawer]: the fields the file declares, no
    subscription, a canvas of width 0. *)
Definition CanvasPitch : Drawer :=
  {| params := defaultCanvasPitchParams;
     pitchTimeStart := Num.of_Z 0;
     pitchTimeEnd := Num.of_Z (-1);
     pitchArray := [];
     pitches := ∅;
     pitchArrayLoaded := false;
     width := Num.of_Z 0;
     handlers := [];
     fired := [];
     requests := [];
     painted := [] |}.

Inductive exn : Type := TypeError.

(** How a method ends: normally, or by an exception; the object is as the
    method left it in both cases. *)
Inductive outcome : Type :=
  | Ok (d : Drawer)
  | Throw (e : exn) (d : Drawer).

Definition bind (o : outcome) (k : Drawer → outcome) : outcome :=
  match o with
  | Ok d => k d
  | Throw e d => Throw e d
  end.

Notation "o >>=! k" := (bind o k) (at level 50, left associativity).

Definition state_of (o : outcome) : Drawer :=
  match o with Ok d | Throw _ d => d end.

Definition set_params (v : Params.t) (d : Drawer) : Drawer :=
  {| params := v; pitchTimeStart := pitchTimeStart d;
     pitchTimeEnd := pitchTimeEnd d; pitchArray := pitchArray d;
     pitches := pitches d; pitchArrayLoaded := pitchArrayLoaded d;
     width := width d; handlers := handlers d; fired := fired d;
     requests := requests d; painted := painted d |}.

Definition set_pitchTimeStart (v : number) (d : Drawer) : Drawer :=
  {| params := params d; pitchTimeStart := v;
     pitchTimeEnd := pitchTimeEnd d; pitchArray := pitchArray d;
     pitches := pitches d; pitchArrayLoaded := pitchArrayLoaded d;
     width := width d; handlers := handlers d; fired := fired d;
     requests := requests d; painted := painted d |}.

Definition set_pitchTimeEnd (v : number) (d : Drawer) : Drawer :=
  {| params := params d; pitchTimeStart := pitchTimeStart d;
     pitchTimeEnd := v; pitchArray := pitchArray d;
     pitches := pitches d; pitchArrayLoaded := pitchArrayLoaded d;
     width := width d; handlers := handlers d; fired := fired d;
     requests := requests d; painted := painted d |}.

Definition set_pitchArray (v : list Sample) (d : Drawer) : Drawer :=
  {| params := params d; pitchTimeStart := pitchTimeStart d;
     pitchTimeEnd := pitchTimeEnd d; pitchArray := v;
     pitches := pitches d; pitchArrayLoaded := pitchArrayLoaded d;
     width := width d; handlers := handlers d; fired := fired d;
     requests := requests d; painted := painted d |}.

Definition set_pitches (v : PixelPitchMap) (d : Drawer) : Drawer :=
  {| params := params d; pitchTimeStart := pitchTimeStart d;
     pitchTimeEnd := pitchTimeEnd d; pitchArray := pitchArray d;
     pitches := v; pitchArrayLoaded := pitchArrayLoaded d;
     width := width d; handlers := handlers d; fired := fired d;
     requests := requests d; painted := painted d |}.

Definition set_pitchArrayLoaded (v : bool) (d : Drawer) : Drawer :=
  {| params := params d; pitchTimeStart := pitchTimeStart d;
     pitchTimeEnd := pitchTimeEnd d; pitchArray := pitchArray d;
     pitches := pitches d; pitchArrayLoaded := v;
     width := width d; handlers := handlers d; fired := fired d;
     requests := requests d; painted := painted d |}.

Definition set_width (v : number) (d : Drawer) : Drawer :=
  {| params := params d; pitchTimeStart := pitchTimeStart d;
     pitchTimeEnd := pitchTimeEnd d; pitchArray := pitchArray d;
     pitches := pitches d; pitchArrayLoaded := pitchArrayLoaded d;
     width := v; handlers := handlers d; fired := fired d;
     requests := requests d; painted := painted d |}.

Definition set_handlers (v : list (string * DrawArgs)) (d : Drawer) : Drawer :=
  {| params := params d; pitchTimeStart := pitchTimeStart d;
     pitchTimeEnd := pitchTimeEnd d; pitchArray := pitchArray d;
     pitches := pitches d; pitchArrayLoaded := pitchArrayLoaded d;
     width := width d; handlers := v; fired := fired d;
     requests := requests d; painted := painted d |}.

Definition set_fired (v : list string) (d : Drawer) : Drawer :=
  {| params := params d; pitchTimeStart := pitchTimeStart d;
     pitchTimeEnd := pitchTimeEnd d; pitchArray := pitchArray d;
     pitches := pitches d; pitchArrayLoaded := pitchArrayLoaded d;
     width := width d; handlers := handlers d; fired := v;
     requests := requests d; painted := painted d |}.

Definition set_requests (v : list (option string)) (d : Drawer) : Drawer :=
  {| params := params d; pitchTimeStart := pitchTimeStart d;
     pitchTimeEnd := pitchTimeEnd d; pitchArray := pitchArray d;
     pitches := pitches d; pitchArrayLoaded := pitchArrayLoaded d;
     width := width d; handlers := handlers d; fired := fired d;
     requests := v; painted := painted d |}.

Definition set_painted (v : list PixelPitchMap) (d : Drawer) : Drawer :=
  {| params := params d; pitchTimeStart := pitchTimeStart d;
     pitchTimeEnd := pitchTimeEnd d; pitchArray := pitchArray d;
     pitches := pitches d; pitchArrayLoaded := pitchArrayLoaded d;
     width := width d; handlers := handlers d; fired := fired d;
     requests := requests d; painted := v |}.

(** ** The aggregation: [calculatePitches] *)

(** [avg(values)]: [reduce] without an initial value starts from the
    first element, and throws a TypeError on an empty array ([None]). *)
Definition avg (values : list number) : option number :=
  match values with
  | [] => None
  | v :: vs => Some (fold_left Num.add vs v / Num.of_nat (length values))
  end.

(** [normalizePitches(min, max)]: the loop replaces the value of every
    key of [this.pitches]. *)
Definition normalizePitch (min max v : number) : number :=
  let pitch := (v - min) / (max - min) in
  let pitch := if pitch >? Num.of_Z 1 then Num.of_Z 1 else pitch in
  let pitch := if pitch <? Num.of_Z 0 then Num.of_Z 0 else pitch in
  pitch.

Definition normalizePitches (min max : number) (d : Drawer) : Drawer :=
  set_pitches (normalizePitch min max <$> pitches d) d.

(** [calculatePitchTimeEnd()]: on an empty [pitchArray] the element at
    [length - 1] is [undefined], and reading its [time] throws. *)
Definition calculatePitchTimeEnd (d : Drawer) : outcome :=
  match Params.pitchTimeEnd (params d) with
  | Some e => Ok (set_pitchTimeEnd e d)
  | None =>
      match last (pitchArray d) with
      | Some dataPoint => Ok (set_pitchTimeEnd (time dataPoint) d)
      | None => Throw TypeError d
      end
  end.

(** The variables of the loop of [calculatePitches], with [this.pitches],
    which the loop writes. *)
Module Loop.
Record t : Type := {
  pitches : PixelPitchMap;
  pitchesForAverage : list number;
  previousPosition : number;
  maxPitch : number;
  minPitch : number;
  maxSegmentPitch : number;
  minSegmentPitch : number;
}.

(** The values before the first iteration. *)
Definition init : t :=
  {| pitches := ∅;
     pitchesForAverage := [];
     previousPosition := Num.of_Z (-1);
     maxPitch := Num.of_Z 0;
     minPitch := Num.of_Z 99999999999;
     maxSegmentPitch := Num.of_Z 0;
     minSegmentPitch := Num.of_Z 99999999999 |}.
End Loop.

Section Aggregation.

(** [this.width], [this.pitchTimeStart], [this.pitchTimeEnd]; the loop
    does not write them. *)
Variables (width timeStart timeEnd : number).

Definition duration : number := timeEnd - timeStart.

(** The test of the range, and the position of a sample in it. *)
Definition inRange (dataPoint : Sample) : bool :=
  (time dataPoint >=? timeStart) && (time dataPoint <=? timeEnd).

Definition pitchPosition (dataPoint : Sample) : number :=
  Num.round (width * (time dataPoint - timeStart) / duration).

(** One iteration of the loop; [None] is the TypeError of [avg]. *)
Definition iteration (st : Loop.t) (dataPoint : Sample) : option Loop.t :=
  let maxPitch :=
    if pitch dataPoint >? Loop.maxPitch st then pitch dataPoint
    else Loop.maxPitch st in
  let minPitch :=
    if pitch dataPoint <? Loop.minPitch st then pitch dataPoint
    else Loop.minPitch st in
  if inRange dataPoint then
    let pitchPosition := pitchPosition dataPoint in
    let pitchesForAverage := Loop.pitchesForAverage st ++ [pitch dataPoint] in
    if pitchPosition !== Loop.previousPosition st then
      if (0 <? length pitchesForAverage)%nat then
        avgPitch ← avg pitchesForAverage;
        Some {| Loop.pitches :=
                  <[Loop.previousPosition st := avgPitch]> (Loop.pitches st);
                Loop.pitchesForAverage := [];
                Loop.previousPosition := pitchPosition;
                Loop.maxPitch := maxPitch;
                Loop.minPitch := minPitch;
                Loop.maxSegmentPitch :=
                  if avgPitch >? Loop.maxSegmentPitch st then avgPitch
                  else Loop.maxSegmentPitch st;
                Loop.minSegmentPitch :=
                  if avgPitch <? Loop.minSegmentPitch st then avgPitch
                  else Loop.minSegmentPitch st |}
      else
        Some {| Loop.pitches := Loop.pitches st;
                Loop.pitchesForAverage := pitchesForAverage;
                Loop.previousPosition := pitchPosition;
                Loop.maxPitch := maxPitch;
                Loop.minPitch := minPitch;
                Loop.maxSegmentPitch := Loop.maxSegmentPitch st;
                Loop.minSegmentPitch := Loop.minSegmentPitch st |}
    else
      Some {| Loop.pitches := Loop.pitches st;
              Loop.pitchesForAverage := pitchesForAverage;
              Loop.previousPosition := pitchPosition;
              Loop.maxPitch := maxPitch;
              Loop.minPitch := minPitch;
              Loop.maxSegmentPitch := Loop.maxSegmentPitch st;
              Loop.minSegmentPitch := Loop.minSegmentPitch st |}
  else
    Some {| Loop.pitches := Loop.pitches st;
            Loop.pitchesForAverage := Loop.pitchesForAverage st;
            Loop.previousPosition := Loop.previousPosition st;
            Loop.maxPitch := maxPitch;
            Loop.minPitch := minPitch;
            Loop.maxSegmentPitch := Loop.maxSegmentPitch st;
            Loop.minSegmentPitch := Loop.minSegmentPitch st |}.

(** The loop over [this.pitchArray], from the state [st]. *)
Fixpoint loop (pitchArray : list Sample) (st : Loop.t) : option Loop.t :=
  match pitchArray with
  | [] => Some st
  | dataPoint :: rest => st' ← iteration st dataPoint; loop rest st'
  end.

End Aggregation.

(** The range that the call of [normalizePitches] at the end of
    [calculatePitches] receives. *)
Definition normalizationRange (p : Params.t) (st : Loop.t) : number * number :=
  if String.eqb (Params.pitchNormalizeTo p) "whole" then
    (Loop.minPitch st, Loop.maxPitch st)
  else if String.eqb (Params.pitchNormalizeTo p) "values" then
    (Params.pitchMin p, Params.pitchMax p)
  else
    (Loop.minSegmentPitch st, Loop.maxSegmentPitch st).

(** [calculatePitches()].  The exception of [avg] is not one the loop can
    end in, as the buffer has just been pushed to when [avg] is called. *)
Definition calculatePitches (d : Drawer) : outcome :=
  calculatePitchTimeEnd (set_pitches ∅ d) >>=! λ d,
  match loop (width d) (pitchTimeStart d) (pitchTimeEnd d) (pitchArray d)
             Loop.init with
  | None => Throw TypeError d
  | Some st =>
      let '(min, max) := normalizationRange (params d) st in
      Ok (normalizePitches min max (set_pitches (Loop.pitches st) d))
  end.

(** ** Waiting for the series: [drawPeaks] and the observer *)

(** Modelled from the spec: the observer of the host library
    ([WaveSurfer.Observer], mixed into the drawer on the last line of the
    file), "an event subscription/emission mechanism ([on], [fire])".
    [on] adds a handler under the name of an event, after those already
    there. *)
Definition on (event : string) (callback : DrawArgs) (d : Drawer) : Drawer :=
  set_handlers (handlers d ++ [(event, callback)]) d.

(** Modelled from the spec: the width setter of the host canvas drawer,
    "a width/size accessor and setter". *)
Definition setWidth (w : number) (d : Drawer) : Drawer := set_width w d.

(** [drawPitches(channelIndex)] paints a rectangle for every key of
    [this.pitches]. *)
Definition drawPitches (d : Drawer) : Drawer :=
  set_painted (painted d ++ [pitches d]) d.

(** [drawPeaks(peaks, length, start, end)].  [drawBars], [drawWave] and
    [pixelRatio] only reach the canvas. *)
Definition drawPeaks (a : DrawArgs) (d : Drawer) : outcome :=
  if pitchArrayLoaded d then
    calculatePitches (setWidth (length_ a) d) >>=! λ d, Ok (drawPitches d)
  else
    Ok (on "pitch-array-loaded" a d).

(** Modelled from the spec: [fireEvent] of the host's observer calls, in
    the order of their subscription, the handlers that were added under
    the name of the event; an exception of a handler ends the call. *)
Definition fireEvent (event : string) (d : Drawer) : outcome :=
  foldl (λ o h, o >>=! drawPeaks h.2)
        (Ok (set_fired (fired d ++ [event]) d))
        (filter (λ h, h.1 = event) (handlers d)).

(** ** The loader: [initDrawer] and [loadPitchArrayFromFile] *)

(** The body of the loop over the lines: a line of two fields adds a
    sample to [pitchArray]. *)
Definition pitchLine (pitchArray : list Sample) (line : string) : list Sample :=
  match split TAB line with
  | [field0; field1] =>
      pitchArray ++ [{| time := parseFloat field0; pitch := parseFloat field1 |}]
  | _ => pitchArray
  end.

Definition pitchLines (responseText : string) : list Sample :=
  fold_left pitchLine (split LF responseText) [].

(** The handler of the [load] event of the request, for a response of
    the given status and text. *)
Definition onLoad (onSuccess : list Sample → Drawer → outcome)
    (status : Z) (responseText : string) (d : Drawer) : outcome :=
  if (status =? 200)%Z then onSuccess (pitchLines responseText) d
  else Ok d.

(** [loadPitchArrayFromFile(pitchFileUrl, onSuccess)] sends the request;
    the handler above runs when the response is there. *)
Definition loadPitchArrayFromFile (pitchFileUrl : option string) (d : Drawer)
    : Drawer :=
  set_requests (requests d ++ [pitchFileUrl]) d.

(** The callback that [initDrawer] hands to the loader. *)
Definition onPitchArrayLoaded (pitchArray : list Sample) (d : Drawer) : outcome :=
  fireEvent "pitch_array_loaded"
            (set_pitchArrayLoaded true (set_pitchArray pitchArray d)).

(** [initDrawer(params)] *)
Definition initDrawer (o : Options.t) (d : Drawer) : Drawer :=
  let d := set_params (extend (params d) o) d in
  let d := set_pitchTimeStart (Params.pitchTimeStart (params d)) d in
  let d :=
    match Params.pitchTimeEnd (params d) with
    | Some e => set_pitchTimeEnd e d
    | None => d
    end in
  let d := set_pitchArrayLoaded false d in
  match Options.pitchArray o with
  | Some a => set_pitchArrayLoaded true (set_pitchArray a d)
  | None => loadPitchArrayFromFile (Options.pitchFileUrl o) d
  end.

(** The response of the request of [initDrawer] arrives. *)
Definition fetchCompleted (status : Z) (responseText : string) (d : Drawer)
    : outcome :=
  onLoad onPitchArrayLoaded status responseText d.

(** ** The canvas: [drawWave] and [drawPitches] *)

(** The parameters that the two painting functions read. *)
Module Canvas.
Record t : Type := {
  height : number;
  pixelRatio : number;
  pitchPointHeight : number;
  pitchPointWidth : number;
  fillParent : bool;
  normalize : bool;
  waveColor : string;
  progressColor : string;
}.
End Canvas.

(** What a drawing context is asked to do. *)
Inductive command : Type :=
  | FillStyle (color : string)
  | BeginPath
  | MoveTo (x y : number)
  | LineTo (x y : number)
  | ClosePath
  | Fill
  | FillRect (x y w h : number).

#[global] Instance command_eq_dec : EqDecision command.
Proof. solve_decision. Defined.

(** The two contexts, each with the commands it has received, the oldest
    first; there is no [progressCc] on some canvases. *)
Record Surfaces : Type := {
  waveCc : list command;
  progressCc : option (list command);
}.

(** [a || 0]: 0 for the numbers that count as false, 0 and [NaN]. *)
Definition truthy (a : number) : bool :=
  match a with
  | NaN => false
  | Fin q => negb (bool_decide (q = 0%Qc))
  | _ => true
  end.

Definition orZero (a : number) : number :=
  if truthy a then a else Num.of_Z 0.

(** The height of a row and the top of the row [channelIndex], as both
    functions compute them. *)
Definition rowHeight (cv : Canvas.t) : number :=
  Canvas.height cv * Canvas.pixelRatio cv / Num.of_Z 2.

Definition offsetY (cv : Canvas.t) (channelIndex : number) : number :=
  orZero (rowHeight cv * channelIndex).

(** The [y] of the rectangle that [drawPitches(channelIndex)] paints for
    a value of [this.pitches]. *)
Definition pitchY (cv : Canvas.t) (channelIndex v : number) : number :=
  offsetY cv channelIndex
  + (rowHeight cv - Canvas.pitchPointHeight cv)
  - v * (rowHeight cv - Canvas.pitchPointHeight cv).

(** [peaks[j]] in an expression of numbers: [NaN] where the array has no
    element. *)
Definition peakAt (peaks : list number) (j : Z) : number :=
  if (j <? 0)%Z then NaN else default NaN (peaks !! Z.to_nat j).

(** The peaks that [drawWave] works on: an array without a negative
    value is taken as the upper half of the wave, and each peak gets its
    opposite after it. *)
Definition hasMinValues (peaks : list number) : bool :=
  existsb (λ val, val <? Num.of_Z 0) peaks.

Definition reflectedPeaks (peaks : list number) : list number :=
  foldl (λ reflected peak, reflected ++ [peak; Num.neg peak]) [] peaks.

Definition wavePeaks (peaks : list number) : list number :=
  if hasMinValues peaks then peaks else reflectedPeaks peaks.

Section DrawWave.

(** [WaveSurfer.util.max] and [WaveSurfer.util.min], of the host. *)
Variables (util_max util_min : list number → number).

Variables (cv : Canvas.t) (width : number).

(** The commands of the closed hull, for [start] and [end] that are
    indices. *)
Definition wavePath (peaks : list number) (channelIndex : number)
    (start end_ : Z) : list command :=
  let peaks := wavePeaks peaks in
  let dollar := Num.frac 1 2 / Canvas.pixelRatio cv in
  let height := rowHeight cv in
  let offsetY := orZero (height * channelIndex) in
  let halfH := height / Num.of_Z 2 in
  let length := Num.of_nat (length peaks / 2) in
  let scale :=
    if Canvas.fillParent cv && (width !== length) then width / length
    else Num.of_Z 1 in
  let absmax :=
    if Canvas.normalize cv then
      let max := util_max peaks in
      let min := util_min peaks in
      if Num.neg min >? max then Num.neg min else max
    else Num.of_Z 1 in
  [BeginPath; MoveTo (Num.of_Z start * scale + dollar) (halfH + offsetY)]
  ++ ((λ i, let h := Num.round (peakAt peaks (2 * i) / absmax * halfH) in
            LineTo (Num.of_Z i * scale + dollar) (halfH - h + offsetY))
      <$> seqZ start (end_ - start))
  ++ ((λ i, let h := Num.round (peakAt peaks (2 * i + 1) / absmax * halfH) in
            LineTo (Num.of_Z i * scale + dollar) (halfH - h + offsetY))
      <$> reverse (seqZ start (end_ - start)))
  ++ [ClosePath; Fill;
      FillRect (Num.of_Z 0) (halfH + offsetY - dollar) width dollar].

(** [drawWave(peaks, channelIndex, start, end)]: the colour and the hull
    on [waveCc], and on [progressCc] when there is one. *)
Definition drawWave (peaks : list number) (channelIndex : number)
    (start end_ : Z) (s : Surfaces) : Surfaces :=
  {| waveCc :=
       waveCc s ++ [FillStyle (Canvas.waveColor cv)]
       ++ wavePath peaks channelIndex start end_;
     progressCc :=
       (λ cc, cc ++ [FillStyle (Canvas.progressColor cv)]
              ++ wavePath peaks channelIndex start end_)
       <$> progressCc s |}.

End DrawWave.

(** ** Definitions for the statements *)

(** The end of the window that [calculatePitchTimeEnd] settles on, when
    there is one: the parameter, else the time of the last sample. *)
Definition windowEnd (d : Drawer) : option number :=
  match Params.pitchTimeEnd (params d) with
  | Some e => Some e
  | None => time <$> last (pitchArray d)
  end.

(** [clamp(x, lo, hi)]: [x] brought back into the range from [lo] to
    [hi]. *)
Definition clamp (x lo hi : number) : number :=
  if x <? lo then lo else if x >? hi then hi else x.

(** A line as the parser takes it: the sample of a line of two fields. *)
Definition lineSample (line : string) : option Sample :=
  match split TAB line with
  | [field0; field1] =>
      Some {| time := parseFloat field0; pitch := parseFloat field1 |}
  | _ => None
  end.

(** The text of a file from its lines, and a line from two fields. *)
Definition unlines (lines : list string) : string :=
  match lines with
  | [] => ""
  | l :: ls => fold_left (λ text line, text ++ String LF line) ls l
  end%string.

Definition tsv (field0 field1 : string) : string :=
  (field0 ++ String TAB field1)%string.

(** How the loop moves a maximum and a minimum on a value [p]. *)
Definition runningMax (m p : number) : number := if p >? m then p else m.
Definition runningMin (m p : number) : number := if p <? m then p else m.

(** The extrema of the segment bound every value of [this.pitches]. *)
Definition segmentBounds (st : Loop.t) : Prop :=
  ∀ k v, Loop.pitches st !! k = Some v →
         (v >? Loop.maxSegmentPitch st) = false
         ∧ (v <? Loop.minSegmentPitch st) = false.

Definition sample (t p : number) : Sample := {| time := t; pitch := p |}.

(** A drawer with an inline series and the parameters of the caller,
    asked to draw on a canvas of the given width. *)
Definition drawerOf (o : Options.t) (w : Z) : Drawer :=
  setWidth (Num.of_Z w) (initDrawer o CanvasPitch).

Definition inline (pitchArray : list Sample) : Options.t :=
  {| Options.pitchArray := Some pitchArray;
     Options.pitchFileUrl := None;
     Options.pitchTimeStart := None;
     Options.pitchTimeEnd := None;
     Options.pitchNormalizeTo := None;
     Options.pitchMin := None;
     Options.pitchMax := None |}.

Definition fromFile (url : string) : Options.t :=
  {| Options.pitchArray := None;
     Options.pitchFileUrl := Some url;
     Options.pitchTimeStart := None;
     Options.pitchTimeEnd := None;
     Options.pitchNormalizeTo := None;
     Options.pitchMin := None;
     Options.pitchMax := None |}.

(** Three samples at the times 0, 0.5 and 1, for a window from 0 to 1 on
    2 pixels: they fall on the positions 0, 1 and 2. *)
Definition threeColumns : list Sample :=
  [ sample (Num.of_Z 0) (Num.of_Z 100);
    sample (Num.frac 1 2) (Num.of_Z 120);
    sample (Num.of_Z 1) (Num.of_Z 140) ].

(** Two samples on position 0 (times 0 and 0.1), then one on position 1
    (time 0.6) and one on position 2 (time 1), for the same window. *)
Definition twoThenOne : list Sample :=
  [ sample (Num.of_Z 0) (Num.of_Z 100);
    sample (Num.frac 1 10) (Num.of_Z 110);
    sample (Num.frac 6 10) (Num.of_Z 150);
    sample (Num.of_Z 1) (Num.of_Z 170) ].

(** Two states of the loop that differ at most in the extrema of the
    whole series. *)
Definition sameSegment (st1 st2 : Loop.t) : Prop :=
  Loop.pitches st1 = Loop.pitches st2
  ∧ Loop.pitchesForAverage st1 = Loop.pitchesForAverage st2
  ∧ Loop.previousPosition st1 = Loop.previousPosition st2
  ∧ Loop.maxSegmentPitch st1 = Loop.maxSegmentPitch st2
  ∧ Loop.minSegmentPitch st1 = Loop.minSegmentPitch st2.

(** The number of tabs of a line. *)
Definition tabs (line : string) : nat :=
  length (filter (λ c, c = TAB) (list_ascii_of_string line)).

(** A number between two rationals. *)
Definition between (lo hi : Qc) (a : number) : Prop :=
  ∃ q, a = Fin q ∧ (lo ≤ q)%Qc ∧ (q ≤ hi)%Qc.

(** The options of an inline series with a [pitchTimeEnd]. *)
Definition inlineUntil (pitchArray : list Sample) (e : number) : Options.t :=
  {| Options.pitchArray := Some pitchArray;
     Options.pitchFileUrl := None;
     Options.pitchTimeStart := None;
     Options.pitchTimeEnd := Some e;
     Options.pitchNormalizeTo := None;
     Options.pitchMin := None;
     Options.pitchMax := None |}.

(** A text with the line ends of Windows: a carriage return before
    every line feed. *)
Definition CR : ascii := ascii_of_nat 13.

Fixpoint crlf (text : string) : string :=
  match text with
  | EmptyString => EmptyString
  | String c text' =>
      if decide (c = LF) then String CR (String LF (crlf text'))
      else String c (crlf text')
  end.

(** The fields with a character more at the end of the last one. *)
Fixpoint snocLast (c : ascii) (fields : list string) : list string :=
  match fields with
  | [] => []
  | [f] => [(f ++ String c "")%string]
  | f :: fs => f :: snocLast c fs
  end.

(** Goals on the order of rationals, handed to [lra]. *)
Ltac qc_order :=
  unfold Qclt, Qcle in *; cbn in *;
  repeat match goal with
  | |- context [Qred ?q] =>
      let v := eval vm_compute in (Qred q) in change (Qred q) with v
  | H : context [Qred ?q] |- _ =>
      let v := eval vm_compute in (Qred q) in change (Qred q) with v in H
  end;
  unfold inject_Z in *; lra.

(** Goals on the order of rationals written in [Qc], as goals on [Q]. *)
Ltac qc_to_q :=
  unfold Qcle, Qclt in *;
  cbn [this Qcplus Qcmult Qcminus Qcopp Q2Qc Qc_of_Z] in *;
  rewrite ?Qred_correct in *.

(** A canvas of the default height. *)
Definition exampleCanvas : Canvas.t :=
  {| Canvas.height := Num.of_Z 128;
     Canvas.pixelRatio := Num.of_Z 1;
     Canvas.pitchPointHeight := Num.of_Z 2;
     Canvas.pitchPointWidth := Num.of_Z 2;
     Canvas.fillParent := true;
     Canvas.normalize := false;
     Canvas.waveColor := "#999";
     Canvas.progressColor := "#555" |}.

(** A peak of the backend: a number between -1 and 1. *)
Definition unitPeak (p : number) : bool :=
  (Num.of_Z (-1) <=? p) && (p <=? Num.of_Z 1).

(** ** Facts on numbers *)

Section NumFacts.

Implicit Types a b c : number.
Implicit Types x y : Qc.

Lemma lt_Fin x y : (Fin x <? Fin y) = bool_decide (x < y)%Qc.
Proof.
  unfold Num.lt, Num.compare. case_bool_decide as H.
  - by rewrite (proj1 (Qclt_alt x y) H).
  - destruct (x ?= y)%Qc eqn:E; try done; by apply Qclt_alt in E.
Qed.

Lemma le_Fin x y : (Fin x <=? Fin y) = bool_decide (x ≤ y)%Qc.
Proof.
  unfold Num.le, Num.compare. case_bool_decide as H.
  - pose proof (proj1 (Qcle_alt x y) H). by destruct (x ?= y)%Qc.
  - destruct (x ?= y)%Qc eqn:E; try done; exfalso; apply H, Qcle_alt;
      by rewrite E.
Qed.

Lemma seq_Fin x y : (Fin x === Fin y) = bool_decide (x = y).
Proof.
  unfold Num.seq, Num.compare. case_bool_decide as H.
  - by rewrite (proj1 (Qceq_alt x y) H).
  - destruct (x ?= y)%Qc eqn:E; try done; by apply Qceq_alt in E.
Qed.

(** [===] holds for equal numbers only, and for every number but [NaN]. *)
Lemma seq_eq a b : (a === b) = true → a = b.
Proof.
  destruct a, b; try done. rewrite seq_Fin. intros H.
  by apply bool_decide_eq_true_1 in H as ->.
Qed.

Lemma seq_refl a : a ≠ NaN → (a === a) = true.
Proof. destruct a; try done. intros _. rewrite seq_Fin. by case_bool_decide. Qed.

Lemma sne_same a : a ≠ NaN → (a !== a) = false.
Proof. intros H. unfold Num.sne. by rewrite seq_refl. Qed.

Lemma sne_neq a b : a ≠ b → (a !== b) = true.
Proof.
  intros H. unfold Num.sne. destruct (a === b) eqn:E; [|done].
  by apply seq_eq in E.
Qed.

Lemma div_1 a : a / Num.of_Z 1 = a.
Proof.
  destruct a; try done. unfold Num.div, Num.of_Z. rewrite Z2Qc_inj_1.
  case_decide as H; [done|]. f_equal. apply (right_id _ _).
Qed.

Lemma lt_irrefl a : (a <? a) = false.
Proof.
  destruct a; try done. rewrite lt_Fin. case_bool_decide as H; [|done].
  by apply (irreflexivity _) in H.
Qed.

Lemma lt_trans a b c : (a <? b) = true → (b <? c) = true → (a <? c) = true.
Proof.
  destruct a, b, c; try done. rewrite !lt_Fin.
  intros H1%bool_decide_eq_true_1 H2%bool_decide_eq_true_1.
  apply bool_decide_eq_true_2. by trans q0.
Qed.

Lemma not_lt_le a b :
  a ≠ NaN → b ≠ NaN → (a <? b) = false → (b <=? a) = true.
Proof.
  destruct a, b; try done; intros _ _. rewrite lt_Fin, le_Fin.
  intros H%bool_decide_eq_false_1. apply bool_decide_eq_true_2.
  by apply Qcnot_lt_le.
Qed.

Lemma le_antisym a b : (a <=? b) = true → (b <=? a) = true → a = b.
Proof.
  destruct a, b; try done. rewrite !le_Fin.
  intros H1%bool_decide_eq_true_1 H2%bool_decide_eq_true_1.
  f_equal. by apply Qcle_antisym.
Qed.

Lemma le_not_nan a b : (a <=? b) = true → a ≠ NaN ∧ b ≠ NaN.
Proof. by destruct a, b. Qed.

End NumFacts.

(** ** Facts on the loop of [calculatePitches] *)

Lemma avg_snoc (values : list number) (p : number) :
  is_Some (avg (values ++ [p])).
Proof. destruct values; by eexists. Qed.

Lemma avg_singleton (p : number) : avg [p] = Some p.
Proof. unfold avg. simpl. f_equal. apply div_1. Qed.

Section LoopFacts.

Variables (width timeStart timeEnd : number).

Local Abbreviation inRange := (inRange timeStart timeEnd).
Local Abbreviation pitchPosition := (pitchPosition width timeStart timeEnd).
Local Abbreviation iteration := (iteration width timeStart timeEnd).
Local Abbreviation loop := (loop width timeStart timeEnd).

(** A sample outside the range only moves the extrema of the series. *)
Lemma iteration_outside st dataPoint :
  inRange dataPoint = false →
  ∃ st', iteration st dataPoint = Some st'
    ∧ Loop.pitches st' = Loop.pitches st
    ∧ Loop.pitchesForAverage st' = Loop.pitchesForAverage st
    ∧ Loop.previousPosition st' = Loop.previousPosition st
    ∧ Loop.maxSegmentPitch st' = Loop.maxSegmentPitch st
    ∧ Loop.minSegmentPitch st' = Loop.minSegmentPitch st.
Proof. intros H. unfold iteration. rewrite H. by eexists. Qed.

(** A sample of the range at the position of the one before it joins
    the buffer. *)
Lemma iteration_same st dataPoint :
  inRange dataPoint = true →
  (pitchPosition dataPoint !== Loop.previousPosition st) = false →
  ∃ st', iteration st dataPoint = Some st'
    ∧ Loop.pitches st' = Loop.pitches st
    ∧ Loop.pitchesForAverage st'
      = Loop.pitchesForAverage st ++ [pitch dataPoint]
    ∧ Loop.previousPosition st' = pitchPosition dataPoint
    ∧ Loop.maxSegmentPitch st' = Loop.maxSegmentPitch st
    ∧ Loop.minSegmentPitch st' = Loop.minSegmentPitch st.
Proof. intros H1 H2. unfold iteration. rewrite H1, H2. by eexists. Qed.

(** A sample of the range at another position: the mean of the buffer
    with the pitch of this sample goes to the position before, and the
    buffer is left empty. *)
Lemma iteration_flush st dataPoint :
  inRange dataPoint = true →
  (pitchPosition dataPoint !== Loop.previousPosition st) = true →
  ∃ st' avgPitch,
    iteration st dataPoint = Some st'
    ∧ avg (Loop.pitchesForAverage st ++ [pitch dataPoint]) = Some avgPitch
    ∧ Loop.pitches st'
      = <[Loop.previousPosition st := avgPitch]> (Loop.pitches st)
    ∧ Loop.pitchesForAverage st' = []
    ∧ Loop.previousPosition st' = pitchPosition dataPoint
    ∧ Loop.maxSegmentPitch st'
      = (if avgPitch >? Loop.maxSegmentPitch st then avgPitch
         else Loop.maxSegmentPitch st)
    ∧ Loop.minSegmentPitch st'
      = (if avgPitch <? Loop.minSegmentPitch st then avgPitch
         else Loop.minSegmentPitch st).
Proof.
  intros H1 H2. unfold iteration. rewrite H1, H2.
  destruct (avg_snoc (Loop.pitchesForAverage st) (pitch dataPoint))
    as [avgPitch Havg].
  rewrite Havg, length_app, Nat.add_comm. simpl. by eexists _, _.
Qed.

(** The three cases are all there is. *)
Lemma iteration_cases st dataPoint :
  inRange dataPoint = false
  ∨ (inRange dataPoint = true
     ∧ (pitchPosition dataPoint !== Loop.previousPosition st) = false)
  ∨ (inRange dataPoint = true
     ∧ (pitchPosition dataPoint !== Loop.previousPosition st) = true).
Proof.
  destruct (inRange dataPoint); [|by left].
  destruct (pitchPosition dataPoint !== Loop.previousPosition st); auto.
Qed.

(** [avg] is only called on a buffer that has an element: the loop ends
    without an exception. *)
Lemma iteration_total st dataPoint : is_Some (iteration st dataPoint).
Proof.
  destruct (iteration_cases st dataPoint) as [H|[[H1 H2]|[H1 H2]]].
  - destruct (iteration_outside st dataPoint H) as (st' & -> & _); by eexists.
  - destruct (iteration_same st dataPoint H1 H2) as (st' & -> & _); by eexists.
  - destruct (iteration_flush st dataPoint H1 H2) as (st' & ? & -> & _);
      by eexists.
Qed.

Lemma loop_total pitchArray st : is_Some (loop pitchArray st).
Proof.
  revert st. induction pitchArray as [|dataPoint rest IH]; intros st; simpl.
  - by eexists.
  - destruct (iteration_total st dataPoint) as [st' ->]. simpl. apply IH.
Qed.

Lemma loop_app l1 l2 st :
  loop (l1 ++ l2) st = loop l1 st ≫= loop l2.
Proof.
  revert st. induction l1 as [|dataPoint rest IH]; intros st; simpl; [done|].
  destruct (iteration st dataPoint) as [st'|]; simpl; [apply IH|done].
Qed.

(** Samples at one position [c] leave the entry of [c] as it is: the
    only write of such a run goes to the position before it. *)
Lemma loop_run_keeps_position run c st :
  c ≠ NaN →
  (∀ dataPoint, dataPoint ∈ run → inRange dataPoint = true →
                pitchPosition dataPoint = c) →
  ∃ st', loop run st = Some st'
    ∧ Loop.pitches st' !! c = Loop.pitches st !! c.
Proof.
  intros Hc. revert st.
  induction run as [|dataPoint rest IH]; intros st Hrun; simpl.
  { by eexists. }
  assert (∀ st1, iteration st dataPoint = Some st1 →
                 Loop.pitches st1 !! c = Loop.pitches st !! c →
                 ∃ st', iteration st dataPoint ≫= loop rest = Some st'
                   ∧ Loop.pitches st' !! c = Loop.pitches st !! c) as Hstep.
  { intros st1 -> Heq. simpl.
    destruct (IH st1) as (st' & -> & Hst').
    - intros x Hx. apply Hrun. by right.
    - eexists. split; [done|]. by rewrite Hst'. }
  destruct (iteration_cases st dataPoint) as [H|[[H1 H2]|[H1 H2]]].
  - destruct (iteration_outside st dataPoint H) as (st1 & E & Hp & _).
    apply (Hstep st1 E). by rewrite Hp.
  - destruct (iteration_same st dataPoint H1 H2) as (st1 & E & Hp & _).
    apply (Hstep st1 E). by rewrite Hp.
  - destruct (iteration_flush st dataPoint H1 H2)
      as (st1 & m & E & _ & Hp & _).
    apply (Hstep st1 E). rewrite Hp.
    rewrite (Hrun dataPoint) in H2 by (done || by left).
    apply lookup_insert_ne. intros <-. by rewrite sne_same in H2.
Qed.

(** The keys of [this.pitches] are positions that [previousPosition]
    has held: a property of the first value of [previousPosition], of
    the keys already there and of the positions of the samples of the
    range is one of every key at the end. *)
Lemma loop_keys (Q : number → Prop) pitchArray st :
  (∀ k, is_Some (Loop.pitches st !! k) → Q k) →
  Q (Loop.previousPosition st) →
  (∀ dataPoint, dataPoint ∈ pitchArray → inRange dataPoint = true →
                Q (pitchPosition dataPoint)) →
  ∃ st', loop pitchArray st = Some st'
    ∧ (∀ k, is_Some (Loop.pitches st' !! k) → Q k)
    ∧ Q (Loop.previousPosition st').
Proof.
  revert st. induction pitchArray as [|dataPoint rest IH];
    intros st Hkeys Hprev Hpos; simpl.
  { by eexists. }
  assert (∀ st1, iteration st dataPoint = Some st1 →
                 (∀ k, is_Some (Loop.pitches st1 !! k) → Q k) →
                 Q (Loop.previousPosition st1) →
                 ∃ st', iteration st dataPoint ≫= loop rest = Some st'
                   ∧ (∀ k, is_Some (Loop.pitches st' !! k) → Q k)
                   ∧ Q (Loop.previousPosition st')) as Hstep.
  { intros st1 -> H1 H2. simpl. apply IH; [done..|].
    intros x Hx. apply Hpos. by right. }
  destruct (iteration_cases st dataPoint) as [H|[[H1 H2]|[H1 H2]]].
  - destruct (iteration_outside st dataPoint H) as (st1 & E & Hp & _ & Hq & _).
    apply (Hstep st1 E); by rewrite ?Hp, ?Hq.
  - destruct (iteration_same st dataPoint H1 H2) as (st1 & E & Hp & _ & Hq & _).
    apply (Hstep st1 E); rewrite ?Hp, ?Hq; [done|].
    apply Hpos; [by left|done].
  - destruct (iteration_flush st dataPoint H1 H2)
      as (st1 & m & E & _ & Hp & _ & Hq & _).
    apply (Hstep st1 E); rewrite ?Hp, ?Hq.
    + intros k. rewrite lookup_insert. case_decide as Hk; [by subst|auto].
    + apply Hpos; [by left|done].
Qed.

(** Samples outside the range leave the map, the buffer and the
    position as they are. *)
Lemma loop_outside pitchArray st :
  (∀ dataPoint, dataPoint ∈ pitchArray → inRange dataPoint = false) →
  ∃ st', loop pitchArray st = Some st'
    ∧ Loop.pitches st' = Loop.pitches st
    ∧ Loop.pitchesForAverage st' = Loop.pitchesForAverage st
    ∧ Loop.previousPosition st' = Loop.previousPosition st.
Proof.
  revert st. induction pitchArray as [|dataPoint rest IH]; intros st Hout; simpl.
  { by eexists. }
  destruct (iteration_outside st dataPoint) as (st1 & -> & Hp & Hb & Hq & _).
  { apply Hout. by left. }
  simpl. destruct (IH st1) as (st' & -> & Hp' & Hb' & Hq').
  { intros x Hx. apply Hout. by right. }
  eexists. split; [done|]. by rewrite Hp', Hb', Hq'.
Qed.

(** An entry stays as long as no sample of the range comes at its
    position: the loop only writes at the position of the sample
    before. *)
Lemma loop_keeps_entry k v pitchArray st :
  Loop.pitches st !! k = Some v →
  Loop.previousPosition st ≠ k →
  (∀ dataPoint, dataPoint ∈ pitchArray → inRange dataPoint = true →
                pitchPosition dataPoint ≠ k) →
  ∃ st', loop pitchArray st = Some st' ∧ Loop.pitches st' !! k = Some v.
Proof.
  revert st. induction pitchArray as [|dataPoint rest IH];
    intros st Hv Hprev Hpos; simpl.
  { by eexists. }
  assert (∀ st1, iteration st dataPoint = Some st1 →
                 Loop.pitches st1 !! k = Some v →
                 Loop.previousPosition st1 ≠ k →
                 ∃ st', iteration st dataPoint ≫= loop rest = Some st'
                   ∧ Loop.pitches st' !! k = Some v) as Hstep.
  { intros st1 -> H1 H2. simpl. apply IH; [done..|].
    intros x Hx. apply Hpos. by right. }
  destruct (iteration_cases st dataPoint) as [H|[[H1 H2]|[H1 H2]]].
  - destruct (iteration_outside st dataPoint H) as (st1 & E & Hp & _ & Hq & _).
    apply (Hstep st1 E); by rewrite ?Hp, ?Hq.
  - destruct (iteration_same st dataPoint H1 H2) as (st1 & E & Hp & _ & Hq & _).
    apply (Hstep st1 E); rewrite ?Hp, ?Hq; [done|].
    apply Hpos; [by left|done].
  - destruct (iteration_flush st dataPoint H1 H2)
      as (st1 & m & E & _ & Hp & _ & Hq & _).
    apply (Hstep st1 E); rewrite ?Hp, ?Hq.
    + by rewrite lookup_insert_ne.
    + apply Hpos; [by left|done].
Qed.

(** What a run of samples at one position [c] leaves in the buffer: all
    its pitches after the buffer of before, when the position was [c]
    already; else its pitches but the first, which was flushed with the
    buffer of before. *)
Lemma loop_at_position run c st :
  c ≠ NaN →
  Loop.previousPosition st = c →
  (∀ dataPoint, dataPoint ∈ run → inRange dataPoint = true →
                pitchPosition dataPoint = c) →
  ∃ st', loop run st = Some st'
    ∧ Loop.pitches st' = Loop.pitches st
    ∧ Loop.pitchesForAverage st'
      = Loop.pitchesForAverage st
        ++ (pitch <$> filter (λ dataPoint, inRange dataPoint = true) run)
    ∧ Loop.previousPosition st' = c.
Proof.
  intros Hc. revert st.
  induction run as [|dataPoint rest IH]; intros st Hprev Hrun; simpl.
  { eexists. by rewrite app_nil_r. }
  assert (∀ x, x ∈ rest → inRange x = true → pitchPosition x = c) as Hrest.
  { intros x Hx. apply Hrun. by right. }
  destruct (inRange dataPoint) eqn:Hin.
  - destruct (iteration_same st dataPoint Hin) as (st1 & -> & Hp & Hb & Hq & _).
    { rewrite Hprev, (Hrun dataPoint) by (done || by left). by apply sne_same. }
    simpl. rewrite (Hrun dataPoint) in Hq by (done || by left).
    destruct (IH st1 Hq Hrest) as (st' & -> & Hp' & Hb' & Hq').
    eexists. rewrite filter_cons_True by done.
    rewrite Hp', Hb', Hp, Hb, <-app_assoc. done.
  - destruct (iteration_outside st dataPoint Hin) as (st1 & -> & Hp & Hb & Hq & _).
    simpl. rewrite <-Hprev, <-Hq in IH.
    destruct (IH st1 eq_refl) as (st' & -> & Hp' & Hb' & Hq').
    { by rewrite Hq, Hprev. }
    eexists. rewrite filter_cons_False by (by rewrite Hin).
    rewrite Hp', Hb', Hp, Hb, Hq', Hq. done.
Qed.

Lemma loop_run_buffer run c st :
  c ≠ NaN →
  (∀ dataPoint, dataPoint ∈ run → inRange dataPoint = true →
                pitchPosition dataPoint = c) →
  ∃ st', loop run st = Some st'
    ∧ Loop.pitchesForAverage st'
      = match pitch <$> filter (λ dataPoint, inRange dataPoint = true) run with
        | [] => Loop.pitchesForAverage st
        | p :: ps =>
            if c !== Loop.previousPosition st then ps
            else Loop.pitchesForAverage st ++ p :: ps
        end.
Proof.
  intros Hc. revert st.
  induction run as [|dataPoint rest IH]; intros st Hrun; simpl.
  { by eexists. }
  assert (∀ x, x ∈ rest → inRange x = true → pitchPosition x = c) as Hrest.
  { intros x Hx. apply Hrun. by right. }
  destruct (iteration_cases st dataPoint) as [H|[[H1 H2]|[H1 H2]]].
  - destruct (iteration_outside st dataPoint H) as (st1 & -> & _ & Hb & Hq & _).
    simpl. destruct (IH st1 Hrest) as (st' & -> & Hb').
    eexists. split; [done|].
    rewrite filter_cons_False by (by rewrite H). by rewrite Hb', Hb, Hq.
  - destruct (iteration_same st dataPoint H1 H2) as (st1 & -> & _ & Hb & Hq & _).
    simpl. rewrite (Hrun dataPoint) in Hq, H2 by (done || by left).
    destruct (loop_at_position rest c st1 Hc Hq Hrest) as (st' & -> & _ & Hb' & _).
    eexists. split; [done|].
    rewrite filter_cons_True by done. simpl.
    by rewrite H2, Hb', Hb, <-app_assoc.
  - destruct (iteration_flush st dataPoint H1 H2)
      as (st1 & m & -> & _ & _ & Hb & Hq & _).
    simpl. rewrite (Hrun dataPoint) in Hq, H2 by (done || by left).
    destruct (loop_at_position rest c st1 Hc Hq Hrest) as (st' & -> & _ & Hb' & _).
    eexists. split; [done|].
    rewrite filter_cons_True by done. simpl.
    by rewrite H2, Hb', Hb.
Qed.

End LoopFacts.

(** ** Positions in a window of positive duration *)

Section Window.

Variables (w s e : Qc).
Hypothesis window : (s < e)%Qc.

Local Abbreviation in_window := (inRange (Fin s) (Fin e)).
Local Abbreviation position := (pitchPosition (Fin w) (Fin s) (Fin e)).

Lemma inRange_finite dataPoint :
  in_window dataPoint = true →
  ∃ t, time dataPoint = Fin t ∧ (s ≤ t)%Qc ∧ (t ≤ e)%Qc.
Proof.
  unfold inRange, Num.ge. intros [H1 H2]%andb_true_iff.
  destruct (time dataPoint) as [| | |t]; try done.
  rewrite le_Fin in H1, H2. exists t.
  by apply bool_decide_eq_true_1 in H1, H2.
Qed.

(** The position of a sample of the range is an integer. *)
Lemma pitchPosition_finite dataPoint :
  in_window dataPoint = true →
  ∃ t, time dataPoint = Fin t
    ∧ position dataPoint
      = Num.of_Z (Qfloor (w * (t - s) / (e - s) + Q2Qc (1 # 2))%Qc).
Proof.
  intros (t & Ht & _)%inRange_finite. exists t. split; [done|].
  unfold pitchPosition, duration. rewrite Ht.
  unfold Num.sub, Num.neg, Num.add, Num.mul, Num.div.
  case_decide as H; [|done].
  exfalso. apply (Qclt_not_eq _ _ window). symmetry.
  apply (inj (λ x, x + - s)%Qc). rewrite H. ring.
Qed.

(** It is not negative when the width is not. *)
Lemma pitchPosition_nonneg dataPoint :
  (0 ≤ w)%Qc →
  in_window dataPoint = true →
  ∃ z, position dataPoint = Num.of_Z z ∧ (0 ≤ z)%Z.
Proof.
  intros Hw Hin.
  destruct (pitchPosition_finite _ Hin) as (t & Ht & ->).
  destruct (inRange_finite _ Hin) as (t' & Ht' & Hst & _).
  rewrite Ht in Ht'. injection Ht' as <-.
  eexists. split; [done|].
  assert (0 ≤ w * (t - s) / (e - s) + Q2Qc (1 # 2))%Qc as H.
  { apply Qcplus_nonneg_nonneg; [|done].
    apply Qcmult_nonneg_nonneg.
    - apply Qcmult_nonneg_nonneg; [done|].
      apply Qcle_minus_iff in Hst. by unfold Qcminus.
    - apply Qclt_le_weak, Qcinv_pos.
      apply Qclt_minus_iff in window. by unfold Qcminus. }
  change 0%Z with (Qfloor 0). by apply Qfloor_resp_le.
Qed.

Lemma pitchPosition_not_minus_1 dataPoint :
  (0 ≤ w)%Qc →
  in_window dataPoint = true →
  (position dataPoint !== Num.of_Z (-1)) = true.
Proof.
  intros Hw Hin.
  destruct (pitchPosition_nonneg _ Hw Hin) as (z & -> & Hz).
  apply sne_neq. unfold Num.of_Z. intros [= H]. lia.
Qed.

End Window.

(** ** [calculatePitches] in terms of its loop *)

Lemma calculatePitchTimeEnd_spec d :
  calculatePitchTimeEnd d
  = match windowEnd d with
    | Some e => Ok (set_pitchTimeEnd e d)
    | None => Throw TypeError d
    end.
Proof.
  unfold calculatePitchTimeEnd, windowEnd.
  destruct (Params.pitchTimeEnd (params d)); [done|].
  by destruct (last (pitchArray d)).
Qed.

(** With an end of the window, [calculatePitches] is the loop followed by
    the normalisation of what the loop left in [this.pitches]: nothing is
    written in between. *)
Lemma calculatePitches_spec d e :
  windowEnd d = Some e →
  ∃ st d',
    loop (width d) (pitchTimeStart d) e (pitchArray d) Loop.init = Some st
    ∧ calculatePitches d = Ok d'
    ∧ pitches d'
      = normalizePitch (normalizationRange (params d) st).1
                       (normalizationRange (params d) st).2
        <$> Loop.pitches st
    ∧ pitchTimeEnd d' = e.
Proof.
  intros He. unfold calculatePitches.
  rewrite calculatePitchTimeEnd_spec.
  change (windowEnd (set_pitches ∅ d)) with (windowEnd d). rewrite He. simpl.
  destruct (loop_total (width d) (pitchTimeStart d) e (pitchArray d) Loop.init)
    as [st Hst].
  rewrite Hst. exists st.
  destruct (normalizationRange (params d) st) as [min max]. by eexists.
Qed.

(** Without one, it throws as soon as it has emptied [this.pitches]. *)
Lemma calculatePitches_throws d :
  windowEnd d = None →
  calculatePitches d = Throw TypeError (set_pitches ∅ d).
Proof.
  intros He. unfold calculatePitches. rewrite calculatePitchTimeEnd_spec.
  change (windowEnd (set_pitches ∅ d)) with (windowEnd d). by rewrite He.
Qed.

(** ** The run at the end of the loop *)



(** ** The first sample of the range *)

(** C9. [previousPosition] starts at -1, so the first sample of the range,
    at a position that is not -1, is flushed alone at once: [this.pitches]
    is then the one entry of key -1 with the pitch of that sample, and
    the buffer is empty.  The entry is still there when the loop ends if
    no later sample of the range is at position -1, and none is for a
    width that is not negative and a window of positive duration;
    [calculatePitches] leaves the map with the key -1. *)
Theorem first_sample_at_minus_1 (d : Drawer) (e : number)
    (pre rest : list Sample) (first : Sample) :
  windowEnd d = Some e →
  pitchArray d = pre ++ first :: rest →
  (∀ dataPoint, dataPoint ∈ pre →
                inRange (pitchTimeStart d) e dataPoint = false) →
  inRange (pitchTimeStart d) e first = true →
  (pitchPosition (width d) (pitchTimeStart d) e first !== Num.of_Z (-1)) = true →
  ∃ st1,
    loop (width d) (pitchTimeStart d) e (pre ++ [first]) Loop.init = Some st1
    ∧ Loop.pitches st1 = {[ Num.of_Z (-1) := pitch first ]}
    ∧ Loop.pitchesForAverage st1 = []
    ∧ ((∀ dataPoint, dataPoint ∈ rest →
          inRange (pitchTimeStart d) e dataPoint = true →
          (pitchPosition (width d) (pitchTimeStart d) e dataPoint
           !== Num.of_Z (-1)) = true)
       ∨ (∃ w s e', width d = Fin w ∧ pitchTimeStart d = Fin s ∧ e = Fin e'
                    ∧ (0 ≤ w)%Qc ∧ (s < e')%Qc) →
       ∃ st d',
         loop (width d) (pitchTimeStart d) e (pitchArray d) Loop.init = Some st
         ∧ Loop.pitches st !! Num.of_Z (-1) = Some (pitch first)
         ∧ calculatePitches d = Ok d'
         ∧ is_Some (pitches d' !! Num.of_Z (-1))).
Proof.
  intros He Harr Hpre Hin Hfirst.
  set (W := width d) in *. set (S := pitchTimeStart d) in *.
  destruct (loop_outside W S e pre Loop.init Hpre) as (st0 & Hst0 & Hp0 & Hb0 & Hq0).
  destruct (iteration_flush W S e st0 first Hin) as (st1 & m & E & Hm & Hp & Hb & Hq & _).
  { by rewrite Hq0. }
  rewrite Hb0 in Hm. change (avg [pitch first] = Some m) in Hm.
  rewrite avg_singleton in Hm. injection Hm as <-.
  rewrite Hp0, Hq0 in Hp. simpl in Hp.
  assert (∀ b, (b !== Num.of_Z (-1)) = true → b ≠ Num.of_Z (-1)) as Hne.
  { intros b Hb' ->. by rewrite sne_same in Hb'. }
  exists st1. repeat split.
  - rewrite loop_app, Hst0. simpl. by rewrite E.
  - by rewrite Hp, insert_empty.
  - done.
  - intros Hrest'.
    assert (∀ x, x ∈ rest → inRange S e x = true →
                 (pitchPosition W S e x !== Num.of_Z (-1)) = true) as Hrest.
    { destruct Hrest' as [H|(w & s & e' & Hw & Hs & -> & Hw0 & Hse)]; [done|].
      intros x _. subst W S. rewrite Hw, Hs.
      by apply pitchPosition_not_minus_1. }
    destruct (loop_keeps_entry W S e (Num.of_Z (-1)) (pitch first) rest st1)
      as (st & Hst & Hv).
    + rewrite Hp. apply lookup_insert_eq.
    + rewrite Hq. by apply Hne.
    + intros x Hx Hxin. by apply Hne, Hrest.
    + destruct (calculatePitches_spec d e He) as (st' & d' & Hst' & Hd' & Hpd & _).
      fold W S in Hst'. rewrite Harr in Hst' |- *.
      assert (loop W S e (pre ++ first :: rest) Loop.init = Some st) as Hall.
      { rewrite loop_app, Hst0. simpl. by rewrite E. }
      rewrite Hall in Hst'. injection Hst' as <-.
      exists st, d'. repeat split; [done..|].
      rewrite Hpd, lookup_fmap, Hv. by eexists.
Qed.

Lemma first_sample_at_minus_1_witness :
  ∃ st, loop (Num.of_Z 2) (Num.of_Z 0) (Num.of_Z 1) threeColumns Loop.init
        = Some st
    ∧ Loop.pitches st !! Num.of_Z (-1) = Some (Num.of_Z 100).
Proof.
  destruct (first_sample_at_minus_1
              (drawerOf (inline threeColumns) 2) (Num.of_Z 1) []
              [sample (Num.frac 1 2) (Num.of_Z 120);
               sample (Num.of_Z 1) (Num.of_Z 140)]
              (sample (Num.of_Z 0) (Num.of_Z 100)))
    as (st1 & _ & _ & _ & Hrest).
  - reflexivity.
  - reflexivity.
  - intros x Hx. by apply elem_of_nil in Hx.
  - vm_compute. reflexivity.
  - vm_compute. reflexivity.
  - destruct Hrest as (st & d' & Hst & Hv & _).
    + right. exists (Qc_of_Z 2), (Qc_of_Z 0), (Qc_of_Z 1).
      repeat split; vm_compute; reflexivity || discriminate.
    + exists st. split; [exact Hst|exact Hv].
Defined.

(** ** The mean that a change of position records *)

(** C1, on the series [twoThenOne] for the window from 0 to 1 on 2
    pixels.  The third sample is the first one at position 1.  When the
    loop has taken it, the entry of position 0 is 130, the mean of 110
    and of the 150 of the third sample, and the buffer is empty: the
    sample that changes the position is in the mean of the position it
    leaves, and not in the buffer of the position it opens.  (The mean of
    the two samples of position 0 is 105; the 100 of the first one went
    to the key -1.) *)
Theorem change_of_position_flushes_its_own_sample :
  let st :=
    loop (Num.of_Z 2) (Num.of_Z 0) (Num.of_Z 1) (take 3 twoThenOne) Loop.init in
  Loop.pitches <$> st
  = Some {[ Num.of_Z (-1) := Num.of_Z 100; Num.of_Z 0 := Num.of_Z 130 ]}
  ∧ Loop.pitchesForAverage <$> st = Some []
  ∧ avg [Num.of_Z 100; Num.of_Z 110] = Some (Num.of_Z 105)
  ∧ avg [Num.of_Z 110; Num.of_Z 150] = Some (Num.of_Z 130).
Proof. intros st. subst st. compute_done. Qed.

(** ** The empty series *)

(** C4, on the drawer of an empty inline series and no [pitchTimeEnd].
    [calculatePitches] empties [this.pitches] and throws a TypeError
    from [calculatePitchTimeEnd], which reads the [time] of the element
    at index -1; a call of [drawPeaks] ends in that exception, before
    anything of the pitch is painted. *)
Theorem empty_series_throws (w : Z) (a : DrawArgs) :
  let d := initDrawer (inline []) CanvasPitch in
  calculatePitchTimeEnd (drawerOf (inline []) w)
  = Throw TypeError (drawerOf (inline []) w)
  ∧ calculatePitches (drawerOf (inline []) w)
    = Throw TypeError (drawerOf (inline []) w)
  ∧ pitches (drawerOf (inline []) w) = ∅
  ∧ drawPeaks a d = Throw TypeError (setWidth (length_ a) d)
  ∧ painted (setWidth (length_ a) d) = [].
Proof. by repeat split. Qed.

(** With a [pitchTimeEnd] the empty series gives the empty map, and no
    exception. *)
Lemma empty_series_with_end d e :
  pitchArray d = [] →
  Params.pitchTimeEnd (params d) = Some e →
  ∃ d', calculatePitches d = Ok d' ∧ pitches d' = ∅.
Proof.
  intros Harr He. unfold calculatePitches. rewrite calculatePitchTimeEnd_spec.
  unfold windowEnd. simpl. rewrite He. simpl. rewrite Harr. simpl.
  destruct (normalizationRange _ _). eexists. split; [done|].
  simpl. apply fmap_empty.
Qed.

(** ** Draw requests before the series is there *)

(** C3, on a drawer that loads its series from a file.  A call of
    [drawPeaks] before the response subscribes the redraw under
    ['pitch-array-loaded'].  The response of status 200 sets the series
    and fires ['pitch_array_loaded']: no handler is under that name, the
    subscription is still waiting and nothing has been painted. *)
Theorem deferred_draw_is_not_run (url : string) (a : DrawArgs) (responseText : string) :
  let d0 := initDrawer (fromFile url) CanvasPitch in
  ∃ d1 d2,
    drawPeaks a d0 = Ok d1
    ∧ handlers d1 = [("pitch-array-loaded"%string, a)]
    ∧ fetchCompleted 200 responseText d1 = Ok d2
    ∧ pitchArrayLoaded d2 = true
    ∧ pitchArray d2 = pitchLines responseText
    ∧ fired d2 = ["pitch_array_loaded"%string]
    ∧ handlers d2 = [("pitch-array-loaded"%string, a)]
    ∧ painted d2 = [].
Proof. intros d0. eexists _, _. by repeat split. Qed.

(** Had the two names been the same, the response would have run the
    redraw: a handler under the name of the event is called. *)
Lemma fireEvent_runs_handler event a d :
  handlers d = [(event, a)] →
  fireEvent event d = drawPeaks a (set_fired (fired d ++ [event]) d).
Proof.
  intros H. unfold fireEvent. simpl. rewrite H.
  by rewrite filter_cons_True, filter_nil.
Qed.

(** ** A response that is not a success *)

Lemma onLoad_other_status onSuccess status responseText d :
  status ≠ 200%Z → onLoad onSuccess status responseText d = Ok d.
Proof. intros H. unfold onLoad. by rewrite (proj2 (Z.eqb_neq status 200) H). Qed.

(** C8. For a status other than 200 the handler of the response does
    nothing: whatever the callback [onSuccess] is, it is not called, and
    the drawer is as before, so [pitchArrayLoaded] is still false and no
    event was fired. *)
Theorem failed_fetch_never_completes
    (onSuccess : list Sample → Drawer → outcome)
    (status : Z) (responseText : string) (d : Drawer) :
  status ≠ 200%Z →
  onLoad onSuccess status responseText d = Ok d
  ∧ fetchCompleted status responseText d = Ok d.
Proof. intros H. split; by apply onLoad_other_status. Qed.

Lemma failed_fetch_never_completes_witness :
  let d := initDrawer (fromFile "pitch.txt") CanvasPitch in
  onLoad (λ _ d, Throw TypeError d) 404 "Not Found" d = Ok d
  ∧ fetchCompleted 404 "Not Found" d = Ok d.
Proof.
  intros d. apply (failed_fetch_never_completes _ 404 "Not Found" d). lia.
Defined.

(** After such a response the drawer waits for ever: every further
    draw request is another subscription, and nothing is painted. *)
Lemma failed_fetch_stalls url status responseText (requests : list DrawArgs) :
  status ≠ 200%Z →
  ∃ d,
    foldl (λ o a, o >>=! drawPeaks a)
          (fetchCompleted status responseText
             (initDrawer (fromFile url) CanvasPitch))
          requests
    = Ok d
    ∧ pitchArrayLoaded d = false ∧ fired d = [] ∧ painted d = [].
Proof.
  intros H.
  unfold fetchCompleted. rewrite (onLoad_other_status _ _ _ _ H).
  generalize (initDrawer (fromFile url) CanvasPitch)
    (eq_refl : pitchArrayLoaded (initDrawer (fromFile url) CanvasPitch) = false)
    (eq_refl : fired (initDrawer (fromFile url) CanvasPitch) = [])
    (eq_refl : painted (initDrawer (fromFile url) CanvasPitch) = []).
  induction requests as [|a rest IH]; intros d Hl Hf Hp; simpl.
  - by exists d.
  - unfold drawPeaks at 2. rewrite Hl. apply IH; done.
Qed.

(** ** The lines of the file *)

Lemma fold_pitchLine lines pitchArray :
  fold_left pitchLine lines pitchArray = pitchArray ++ omap lineSample lines.
Proof.
  revert pitchArray. induction lines as [|line rest IH]; intros pitchArray; simpl.
  { by rewrite app_nil_r. }
  rewrite IH. unfold pitchLine, lineSample.
  destruct (split TAB line) as [|f0 [|f1 [|f2 fs]]]; try done.
  by rewrite <-app_assoc.
Qed.

(** The samples are those of the lines of two fields, in the order of
    the lines. *)
Lemma pitchLines_spec responseText :
  pitchLines responseText = omap lineSample (split LF responseText).
Proof. unfold pitchLines. by rewrite fold_pitchLine. Qed.

(** The fields of a line are one more than its tabs: a line has two
    fields when it has one tab. *)
Lemma split_length sep text :
  length (split sep text)
  = S (length (filter (λ c, c = sep) (list_ascii_of_string text))).
Proof.
  induction text as [|c text IH]; simpl; [done|].
  case_decide as H.
  - rewrite filter_cons_True by done. simpl. by rewrite IH.
  - rewrite filter_cons_False by done.
    destruct (split sep text); simpl in *; [done|]. by rewrite <-IH.
Qed.

(** C7. The parser keeps the lines that split on a tab into two fields,
    as the sample of the two fields read by [parseFloat], and no other
    line; the lines [1.2<TAB>100.0], [garbage], [2.4<TAB>110.0] give the
    two samples of time 1.2 and pitch 100, and of time 2.4 and pitch
    110. *)
Theorem parser_keeps_lines_of_two_fields :
  (∀ responseText,
     pitchLines responseText = omap lineSample (split LF responseText))
  ∧ (∀ line,
       let pitchParts := split TAB line in
       lineSample line
       = if decide (length pitchParts = 2%nat) then
           Some (sample (parseFloat (nth 0 pitchParts ""))
                        (parseFloat (nth 1 pitchParts "")))
         else None)
  ∧ pitchLines (unlines [tsv "1.2" "100.0"; "garbage"; tsv "2.4" "110.0"])
    = [sample (Num.frac 12 10) (Num.of_Z 100);
       sample (Num.frac 24 10) (Num.of_Z 110)].
Proof.
  split; [exact pitchLines_spec|]. split.
  - intros line pitchParts. unfold lineSample. fold pitchParts.
    by destruct pitchParts as [|f0 [|f1 [|f2 fs]]].
  - compute_done.
Qed.

(** C10. A line of two fields is kept whatever the fields are: its
    sample, the two fields read by [parseFloat], is in the series, and
    the series has no other sample.  A field that is no number is read
    as [NaN]: the line [a<TAB>b] gives the sample of time [NaN] and pitch
    [NaN]. *)
Theorem line_of_two_fields_is_kept :
  (∀ responseText line field0 field1,
     line ∈ split LF responseText →
     split TAB line = [field0; field1] →
     sample (parseFloat field0) (parseFloat field1) ∈ pitchLines responseText)
  ∧ (∀ responseText dataPoint,
       dataPoint ∈ pitchLines responseText →
       ∃ line field0 field1,
         line ∈ split LF responseText
         ∧ split TAB line = [field0; field1]
         ∧ dataPoint = sample (parseFloat field0) (parseFloat field1))
  ∧ parseFloat "a" = NaN
  ∧ pitchLines (tsv "a" "b") = [sample NaN NaN].
Proof.
  split; [|split; [|done]].
  - intros responseText line field0 field1 Hline Hfields.
    rewrite pitchLines_spec. apply list_elem_of_omap.
    exists line. split; [done|]. unfold lineSample. by rewrite Hfields.
  - intros responseText dataPoint. rewrite pitchLines_spec.
    intros (line & Hline & Hsample)%list_elem_of_omap.
    unfold lineSample in Hsample.
    destruct (split TAB line) as [|f0 [|f1 [|f2 fs]]] eqn:E; try done.
    injection Hsample as <-. by exists line, f0, f1.
Qed.

Lemma line_of_two_fields_is_kept_witness :
  sample NaN NaN ∈ pitchLines (tsv "a" "b").
Proof.
  apply (proj1 line_of_two_fields_is_kept (tsv "a" "b") (tsv "a" "b") "a" "b").
  - vm_compute. left.
  - reflexivity.
Defined.

(** ** The normalisation *)

(** The two tests of [normalizePitches] are a clamp into the range from
    0 to 1. *)
Lemma normalizePitch_clamp min max v :
  normalizePitch min max v
  = clamp ((v - min) / (max - min)) (Num.of_Z 0) (Num.of_Z 1).
Proof.
  unfold normalizePitch, clamp. set (x := (v - min) / (max - min)).
  unfold Num.gt.
  destruct (Num.of_Z 1 <? x) eqn:H1.
  - assert ((x <? Num.of_Z 0) = false) as ->; [|done].
    destruct (x <? Num.of_Z 0) eqn:H0; [|done].
    by pose proof (lt_trans _ _ _ H1 H0).
  - by destruct (x <? Num.of_Z 0).
Qed.

(** A clamp into the range from 0 to 1 is in that range, but for
    [NaN]. *)
Lemma clamp_unit x :
  x ≠ NaN →
  (Num.of_Z 0 <=? clamp x (Num.of_Z 0) (Num.of_Z 1)) = true
  ∧ (clamp x (Num.of_Z 0) (Num.of_Z 1) <=? Num.of_Z 1) = true.
Proof.
  intros Hx. unfold clamp, Num.gt.
  destruct (x <? Num.of_Z 0) eqn:H0; [done|].
  destruct (Num.of_Z 1 <? x) eqn:H1; [done|].
  split; by apply not_lt_le.
Qed.

(** The quotient of the normalisation is a number for finite values and
    a range of finite ends that differ. *)
Lemma quotient_finite (v min max : Qc) :
  min ≠ max →
  Num.is_finite ((Fin v - Fin min) / (Fin max - Fin min)) = true.
Proof.
  intros H. unfold Num.sub, Num.neg, Num.add, Num.div.
  case_decide as E; [|done].
  exfalso. apply H. symmetry. apply (inj (λ x, x + - min)%Qc).
  rewrite E. ring.
Qed.



(** ** The extrema and the range of the normalisation *)

Lemma runningMax_keeps m p q : (q >? m) = false → (q >? runningMax m p) = false.
Proof.
  unfold runningMax, Num.gt. intros H. destruct (m <? p) eqn:E; [|done].
  destruct (p <? q) eqn:E'; [|done]. by rewrite (lt_trans _ _ _ E E') in H.
Qed.

Lemma runningMax_self m p : (p >? runningMax m p) = false.
Proof.
  unfold runningMax, Num.gt. destruct (m <? p) eqn:E; [|done]. apply lt_irrefl.
Qed.

Lemma runningMin_keeps m p q : (q <? m) = false → (q <? runningMin m p) = false.
Proof.
  unfold runningMin. intros H. destruct (p <? m) eqn:E; [|done].
  destruct (q <? p) eqn:E'; [|done]. by rewrite (lt_trans _ _ _ E' E) in H.
Qed.

Lemma runningMin_self m p : (p <? runningMin m p) = false.
Proof. unfold runningMin. destruct (p <? m) eqn:E; [|done]. apply lt_irrefl. Qed.

(** A maximum moved over a list is above the start and the list, and is
    the start or in the list; so for a minimum. *)
Lemma fold_runningMax_upper l m q :
  (q >? m) = false ∨ q ∈ l → (q >? fold_left runningMax l m) = false.
Proof.
  revert m. induction l as [|p l IH]; intros m; simpl.
  - intros [H|H]; [done|]. by apply elem_of_nil in H.
  - intros [H|[->|H]%elem_of_cons]; apply IH; auto.
    + left. by apply runningMax_keeps.
    + left. apply runningMax_self.
Qed.

Lemma fold_runningMin_lower l m q :
  (q <? m) = false ∨ q ∈ l → (q <? fold_left runningMin l m) = false.
Proof.
  revert m. induction l as [|p l IH]; intros m; simpl.
  - intros [H|H]; [done|]. by apply elem_of_nil in H.
  - intros [H|[->|H]%elem_of_cons]; apply IH; auto.
    + left. by apply runningMin_keeps.
    + left. apply runningMin_self.
Qed.

Lemma fold_runningMax_attained l m :
  fold_left runningMax l m = m ∨ fold_left runningMax l m ∈ l.
Proof.
  revert m. induction l as [|p l IH]; intros m; simpl; [by left|].
  destruct (IH (runningMax m p)) as [->|H]; [|right; by right].
  unfold runningMax. destruct (p >? m); [right; by left|by left].
Qed.

Lemma fold_runningMin_attained l m :
  fold_left runningMin l m = m ∨ fold_left runningMin l m ∈ l.
Proof.
  revert m. induction l as [|p l IH]; intros m; simpl; [by left|].
  destruct (IH (runningMin m p)) as [->|H]; [|right; by right].
  unfold runningMin. destruct (p <? m); [right; by left|by left].
Qed.

(** Between the two starts of the loop, the extrema of a series that is
    not empty are pitches of the series. *)
Lemma fold_runningMax_exact l :
  l ≠ [] →
  (∀ p, p ∈ l → (Num.of_Z 0 <=? p) = true) →
  fold_left runningMax l (Num.of_Z 0) ∈ l.
Proof.
  intros Hne Hpos.
  destruct (fold_runningMax_attained l (Num.of_Z 0)) as [E|H]; [|done].
  destruct l as [|p l]; [done|]. rewrite E.
  assert (p = Num.of_Z 0) as ->; [|by left].
  apply le_antisym; [|apply Hpos; by left].
  destruct (le_not_nan _ _ (Hpos p ltac:(by left))) as [_ Hp].
  apply not_lt_le; [done..|].
  rewrite <-E at 1. apply (fold_runningMax_upper (p :: l)). right. by left.
Qed.

Lemma fold_runningMin_exact l :
  l ≠ [] →
  (∀ p, p ∈ l → (p <=? Num.of_Z 99999999999) = true) →
  fold_left runningMin l (Num.of_Z 99999999999) ∈ l.
Proof.
  intros Hne Hpos.
  destruct (fold_runningMin_attained l (Num.of_Z 99999999999)) as [E|H]; [|done].
  destruct l as [|p l]; [done|]. rewrite E.
  assert (p = Num.of_Z 99999999999) as ->; [|by left].
  apply le_antisym; [apply Hpos; by left|].
  destruct (le_not_nan _ _ (Hpos p ltac:(by left))) as [Hp _].
  apply not_lt_le; [done..|].
  rewrite <-E at 1. apply (fold_runningMin_lower (p :: l)). right. by left.
Qed.

Section Extrema.

Variables (width timeStart timeEnd : number).

(** Every iteration moves the extrema of the series on the pitch of its
    sample, in the range or not. *)
Lemma iteration_extrema st dataPoint st' :
  iteration width timeStart timeEnd st dataPoint = Some st' →
  Loop.maxPitch st' = runningMax (Loop.maxPitch st) (pitch dataPoint)
  ∧ Loop.minPitch st' = runningMin (Loop.minPitch st) (pitch dataPoint).
Proof.
  unfold iteration.
  destruct (inRange _ _ _); [|by intros [= <-]].
  destruct (_ !== _); [|by intros [= <-]].
  destruct (_ <? _)%nat; [|by intros [= <-]].
  destruct (avg _); [|done]. by intros [= <-].
Qed.

Lemma loop_extrema pitchArray st st' :
  loop width timeStart timeEnd pitchArray st = Some st' →
  Loop.maxPitch st'
  = fold_left runningMax (pitch <$> pitchArray) (Loop.maxPitch st)
  ∧ Loop.minPitch st'
    = fold_left runningMin (pitch <$> pitchArray) (Loop.minPitch st).
Proof.
  revert st. induction pitchArray as [|dataPoint rest IH]; intros st; simpl.
  { by intros [= <-]. }
  destruct (iteration _ _ _ st dataPoint) as [st1|] eqn:E; [|done]. simpl.
  intros H. destruct (iteration_extrema _ _ _ E) as [<- <-]. by apply IH.
Qed.

Lemma iteration_segmentBounds st dataPoint st' :
  segmentBounds st →
  iteration width timeStart timeEnd st dataPoint = Some st' →
  segmentBounds st'.
Proof.
  intros Hb E.
  destruct (iteration_cases width timeStart timeEnd st dataPoint)
    as [H|[[H1 H2]|[H1 H2]]].
  - destruct (iteration_outside width timeStart timeEnd st dataPoint H)
      as (st1 & E1 & Hp & _ & _ & Hmax & Hmin).
    rewrite E in E1. injection E1 as <-.
    intros k v. rewrite Hp, Hmax, Hmin. apply Hb.
  - destruct (iteration_same width timeStart timeEnd st dataPoint H1 H2)
      as (st1 & E1 & Hp & _ & _ & Hmax & Hmin).
    rewrite E in E1. injection E1 as <-.
    intros k v. rewrite Hp, Hmax, Hmin. apply Hb.
  - destruct (iteration_flush width timeStart timeEnd st dataPoint H1 H2)
      as (st1 & m & E1 & _ & Hp & _ & _ & Hmax & Hmin).
    rewrite E in E1. injection E1 as <-.
    intros k v. rewrite Hp, Hmax, Hmin, lookup_insert.
    fold (runningMax (Loop.maxSegmentPitch st) m).
    fold (runningMin (Loop.minSegmentPitch st) m).
    case_decide as Hk.
    + intros [= <-]. split; [apply runningMax_self|apply runningMin_self].
    + intros [Hmax' Hmin']%Hb.
      split; [by apply runningMax_keeps|by apply runningMin_keeps].
Qed.

Lemma loop_segmentBounds pitchArray st st' :
  segmentBounds st →
  loop width timeStart timeEnd pitchArray st = Some st' →
  segmentBounds st'.
Proof.
  revert st. induction pitchArray as [|dataPoint rest IH]; intros st Hb; simpl.
  { by intros [= <-]. }
  destruct (iteration _ _ _ st dataPoint) as [st1|] eqn:E; [|done]. simpl.
  apply IH. by apply (iteration_segmentBounds st dataPoint).
Qed.

End Extrema.




(** ** Further properties of the aggregation *)

Section Outside.

Variables (width timeStart timeEnd : number).

Lemma iteration_sameSegment st1 st2 dataPoint :
  sameSegment st1 st2 →
  ∃ st1' st2',
    iteration width timeStart timeEnd st1 dataPoint = Some st1'
    ∧ iteration width timeStart timeEnd st2 dataPoint = Some st2'
    ∧ sameSegment st1' st2'.
Proof.
  intros (Hp & Hb & Hq & Hmax & Hmin).
  destruct (iteration_cases width timeStart timeEnd st1 dataPoint)
    as [H|[[H1 H2]|[H1 H2]]].
  - destruct (iteration_outside width timeStart timeEnd st1 dataPoint H)
      as (st1' & -> & Hp1 & Hb1 & Hq1 & Hmax1 & Hmin1).
    destruct (iteration_outside width timeStart timeEnd st2 dataPoint H)
      as (st2' & -> & Hp2 & Hb2 & Hq2 & Hmax2 & Hmin2).
    exists st1', st2'. unfold sameSegment. by rewrite Hp1, Hb1, Hq1, Hmax1, Hmin1,
      Hp2, Hb2, Hq2, Hmax2, Hmin2.
  - destruct (iteration_same width timeStart timeEnd st1 dataPoint H1 H2)
      as (st1' & -> & Hp1 & Hb1 & Hq1 & Hmax1 & Hmin1).
    rewrite Hq in H2.
    destruct (iteration_same width timeStart timeEnd st2 dataPoint H1 H2)
      as (st2' & -> & Hp2 & Hb2 & Hq2 & Hmax2 & Hmin2).
    exists st1', st2'. unfold sameSegment. by rewrite Hp1, Hb1, Hq1, Hmax1, Hmin1,
      Hp2, Hb2, Hq2, Hmax2, Hmin2, Hp, Hb, Hmax, Hmin.
  - destruct (iteration_flush width timeStart timeEnd st1 dataPoint H1 H2)
      as (st1' & m1 & -> & Hm1 & Hp1 & Hb1 & Hq1 & Hmax1 & Hmin1).
    rewrite Hq in H2.
    destruct (iteration_flush width timeStart timeEnd st2 dataPoint H1 H2)
      as (st2' & m2 & -> & Hm2 & Hp2 & Hb2 & Hq2 & Hmax2 & Hmin2).
    rewrite Hb, Hm2 in Hm1. injection Hm1 as <-.
    exists st1', st2'. unfold sameSegment. by rewrite Hp1, Hb1, Hq1, Hmax1, Hmin1,
      Hp2, Hb2, Hq2, Hmax2, Hmin2, Hp, Hq, Hmax, Hmin.
Qed.

Lemma loop_sameSegment pitchArray st1 st2 :
  sameSegment st1 st2 →
  ∃ st1' st2',
    loop width timeStart timeEnd pitchArray st1 = Some st1'
    ∧ loop width timeStart timeEnd pitchArray st2 = Some st2'
    ∧ sameSegment st1' st2'.
Proof.
  revert st1 st2. induction pitchArray as [|dataPoint rest IH];
    intros st1 st2 Hsame; simpl.
  { by exists st1, st2. }
  destruct (iteration_sameSegment st1 st2 dataPoint Hsame)
    as (st1' & st2' & -> & -> & Hsame').
  simpl. by apply IH.
Qed.

(** The loop over a series and the loop over its samples of the range
    end with the same map, buffer, position and extrema of the
    segment. *)
Lemma loop_filter_inRange pitchArray st :
  ∃ st1 st2,
    loop width timeStart timeEnd pitchArray st = Some st1
    ∧ loop width timeStart timeEnd
        (filter (λ dataPoint, inRange timeStart timeEnd dataPoint = true)
                pitchArray) st
      = Some st2
    ∧ sameSegment st1 st2.
Proof.
  assert (∀ st1 st2, sameSegment st1 st2 →
    ∃ st1' st2',
      loop width timeStart timeEnd pitchArray st1 = Some st1'
      ∧ loop width timeStart timeEnd
          (filter (λ dataPoint, inRange timeStart timeEnd dataPoint = true)
                  pitchArray) st2
        = Some st2'
      ∧ sameSegment st1' st2') as H.
  { induction pitchArray as [|dataPoint rest IH]; intros st1 st2 Hsame; simpl.
    { by exists st1, st2. }
    destruct (inRange timeStart timeEnd dataPoint) eqn:Hin.
    - rewrite filter_cons_True by done. simpl.
      destruct (iteration_sameSegment st1 st2 dataPoint Hsame)
        as (st1' & st2' & -> & -> & Hsame').
      simpl. by apply IH.
    - rewrite filter_cons_False by (by rewrite Hin).
      destruct (iteration_outside width timeStart timeEnd st1 dataPoint Hin)
        as (st1' & -> & Hp & Hb & Hq & Hmax & Hmin).
      simpl. apply IH. destruct Hsame as (Hp' & Hb' & Hq' & Hmax' & Hmin').
      unfold sameSegment. by rewrite Hp, Hb, Hq, Hmax, Hmin. }
  apply H. by repeat split.
Qed.

End Outside.

(** X1. With a [pitchTimeEnd] and a policy that is not ['whole'], the
    samples outside the window have no part in the map that
    [calculatePitches] leaves: it is the map of the series without
    them. *)
Theorem samples_outside_do_not_count (d : Drawer) (e : number) :
  Params.pitchTimeEnd (params d) = Some e →
  Params.pitchNormalizeTo (params d) ≠ "whole"%string →
  pitches (state_of (calculatePitches d))
  = pitches (state_of (calculatePitches
      (set_pitchArray
         (filter (λ dataPoint, inRange (pitchTimeStart d) e dataPoint = true)
                 (pitchArray d)) d))).
Proof.
  intros He Hpolicy.
  set (d2 := set_pitchArray _ d).
  assert (windowEnd d = Some e) as Hd by (unfold windowEnd; by rewrite He).
  assert (windowEnd d2 = Some e) as Hd2 by (unfold windowEnd; simpl; by rewrite He).
  destruct (calculatePitches_spec d e Hd) as (st1 & d1' & Hst1 & -> & Hp1 & _).
  destruct (calculatePitches_spec d2 e Hd2) as (st2 & d2' & Hst2 & -> & Hp2 & _).
  simpl. rewrite Hp1, Hp2.
  destruct (loop_filter_inRange (width d) (pitchTimeStart d) e (pitchArray d)
              Loop.init) as (st1' & st2' & Hst1' & Hst2' & Hsame).
  rewrite Hst1 in Hst1'. injection Hst1' as <-.
  change (loop (width d) (pitchTimeStart d) e
            (filter (λ dataPoint, inRange (pitchTimeStart d) e dataPoint = true)
                    (pitchArray d)) Loop.init = Some st2) in Hst2.
  rewrite Hst2 in Hst2'. injection Hst2' as <-.
  destruct Hsame as (Hp & _ & _ & Hmax & Hmin).
  change (params d2) with (params d).
  unfold normalizationRange.
  rewrite (proj2 (String.eqb_neq _ _) Hpolicy).
  destruct (String.eqb _ "values"); simpl; by rewrite Hp, ?Hmax, ?Hmin.
Qed.

Lemma samples_outside_do_not_count_witness :
  let d := drawerOf (inlineUntil (threeColumns ++ [sample (Num.of_Z 5) (Num.of_Z 500)])
                                 (Num.of_Z 1)) 2 in
  pitches (state_of (calculatePitches d))
  = pitches (state_of (calculatePitches
      (set_pitchArray
         (filter (λ dataPoint,
                    inRange (pitchTimeStart d) (Num.of_Z 1) dataPoint = true)
                 (pitchArray d)) d))).
Proof.
  intros d. apply (samples_outside_do_not_count d (Num.of_Z 1)).
  - reflexivity.
  - vm_compute. discriminate.
Defined.

(** The mean of values between two bounds is between them. *)
Lemma fold_add_between (lo hi : Qc) vs (a : Qc) :
  (∀ v, v ∈ vs → between lo hi v) →
  ∃ total,
    fold_left Num.add vs (Fin a) = Fin total
    ∧ (a + Qc_of_Z (Z.of_nat (length vs)) * lo ≤ total)%Qc
    ∧ (total ≤ a + Qc_of_Z (Z.of_nat (length vs)) * hi)%Qc.
Proof.
  revert a. induction vs as [|v vs IH]; intros a Hvs.
  { exists a. split; [done|].
    change (Qc_of_Z (Z.of_nat (length (@nil number)))) with (Qc_of_Z 0).
    rewrite Z2Qc_inj_0. split; ring_simplify; apply Qcle_refl. }
  destruct (Hvs v) as (q & -> & Hlo & Hhi); [by left|].
  destruct (IH (a + q)%Qc) as (total & Htotal & Hlo' & Hhi').
  { intros x Hx. apply Hvs. by right. }
  exists total. split; [done|].
  change (length (Fin q :: vs)) with (S (length vs)).
  rewrite Nat2Z.inj_succ, <-Z.add_1_r, Z2Qc_inj_add, Z2Qc_inj_1.
  set (n := Qc_of_Z (Z.of_nat (length vs))) in *.
  split.
  - apply Qcle_trans with (a + q + n * lo)%Qc; [|done].
    replace (a + (n + 1) * lo)%Qc with (a + lo + n * lo)%Qc by ring.
    apply Qcplus_le_mono_r. by apply Qcplus_le_mono_l.
  - apply Qcle_trans with (a + q + n * hi)%Qc; [done|].
    replace (a + (n + 1) * hi)%Qc with (a + hi + n * hi)%Qc by ring.
    apply Qcplus_le_mono_r. by apply Qcplus_le_mono_l.
Qed.

Lemma avg_between (lo hi : Qc) values :
  values ≠ [] →
  (∀ v, v ∈ values → between lo hi v) →
  ∃ m, avg values = Some m ∧ between lo hi m.
Proof.
  destruct values as [|v vs]; [done|]. intros _ Hvs.
  destruct (Hvs v) as (a & -> & Hlo & Hhi); [by left|].
  destruct (fold_add_between lo hi vs a) as (total & Htotal & Hlo' & Hhi').
  { intros x Hx. apply Hvs. by right. }
  unfold avg. rewrite Htotal.
  change (length (Fin a :: vs)) with (S (length vs)).
  unfold Num.of_nat, Num.of_Z.
  rewrite Nat2Z.inj_succ, <-Z.add_1_r, Z2Qc_inj_add, Z2Qc_inj_1.
  set (n := Qc_of_Z (Z.of_nat (length vs))) in *.
  assert (0 ≤ n)%Qc as Hn.
  { rewrite <-Z2Qc_inj_0. subst n.
    apply (proj1 (Z2Qc_inj_le 0 (Z.of_nat (length vs)))). lia. }
  assert (0 < n + 1)%Qc as Hn1 by (by apply Qcplus_nonneg_pos).
  assert (n + 1 ≠ 0)%Qc as Hn0.
  { intros E. rewrite E in Hn1. by apply (irreflexivity _) in Hn1. }
  unfold Num.div. rewrite decide_False by done.
  eexists. split; [done|]. exists (total / (n + 1))%Qc. split; [done|].
  assert (total / (n + 1) * (n + 1) = total)%Qc as Hdiv.
  { unfold Qcdiv. by rewrite <-Qcmult_assoc, Qcmult_inv_l, Qcmult_1_r. }
  split.
  - apply (Qcmult_le_mono_pos_r _ _ (n + 1)%Qc Hn1). rewrite Hdiv.
    apply Qcle_trans with (a + n * lo)%Qc; [|done].
    replace (lo * (n + 1))%Qc with (lo + n * lo)%Qc by ring.
    by apply Qcplus_le_mono_r.
  - apply (Qcmult_le_mono_pos_r _ _ (n + 1)%Qc Hn1). rewrite Hdiv.
    apply Qcle_trans with (a + n * hi)%Qc; [done|].
    replace (hi * (n + 1))%Qc with (hi + n * hi)%Qc by ring.
    by apply Qcplus_le_mono_r.
Qed.

Section Between.

Variables (width timeStart timeEnd : number) (lo hi : Qc).

Lemma loop_between pitchArray st :
  (∀ k v, Loop.pitches st !! k = Some v → between lo hi v) →
  (∀ p, p ∈ Loop.pitchesForAverage st → between lo hi p) →
  (∀ dataPoint, dataPoint ∈ pitchArray →
                inRange timeStart timeEnd dataPoint = true →
                between lo hi (pitch dataPoint)) →
  ∃ st', loop width timeStart timeEnd pitchArray st = Some st'
    ∧ (∀ k v, Loop.pitches st' !! k = Some v → between lo hi v)
    ∧ (∀ p, p ∈ Loop.pitchesForAverage st' → between lo hi p).
Proof.
  revert st. induction pitchArray as [|dataPoint rest IH];
    intros st Hmap Hbuf Hin; simpl.
  { by exists st. }
  assert (∀ x, x ∈ rest → inRange timeStart timeEnd x = true →
               between lo hi (pitch x)) as Hrest.
  { intros x Hx. apply Hin. by right. }
  assert (inRange timeStart timeEnd dataPoint = true →
          ∀ p, p ∈ Loop.pitchesForAverage st ++ [pitch dataPoint] →
               between lo hi p) as Hpush.
  { intros H p [Hp| ->%list_elem_of_singleton]%elem_of_app; [by apply Hbuf|].
    apply Hin; [by left|done]. }
  destruct (iteration_cases width timeStart timeEnd st dataPoint)
    as [H|[[H1 H2]|[H1 H2]]].
  - destruct (iteration_outside width timeStart timeEnd st dataPoint H)
      as (st1 & -> & Hp & Hb & _).
    simpl. apply IH; [by rewrite Hp|by rewrite Hb|done].
  - destruct (iteration_same width timeStart timeEnd st dataPoint H1 H2)
      as (st1 & -> & Hp & Hb & _).
    simpl. apply IH; [by rewrite Hp|rewrite Hb; by apply Hpush|done].
  - destruct (iteration_flush width timeStart timeEnd st dataPoint H1 H2)
      as (st1 & m & -> & Hm & Hp & Hb & _).
    simpl. apply IH; [|rewrite Hb; by intros p Hp'%elem_of_nil|done].
    intros k v. rewrite Hp, lookup_insert. case_decide; [|by apply Hmap].
    intros [= <-].
    destruct (avg_between lo hi (Loop.pitchesForAverage st ++ [pitch dataPoint]))
      as (m' & Hm' & Hbetween); [by destruct (Loop.pitchesForAverage st)|by apply Hpush|].
    rewrite Hm in Hm'. by injection Hm' as <-.
Qed.

End Between.



Lemma fold_add_NaN vs : fold_left Num.add vs NaN = NaN.
Proof. induction vs as [|v vs IH]; [done|]. simpl. apply IH. Qed.

Lemma add_NaN_r a : a + NaN = NaN.
Proof. by destruct a. Qed.

Lemma avg_NaN values : NaN ∈ values → avg values = Some NaN.
Proof.
  destruct values as [|v vs]; [by intros H%elem_of_nil|].
  intros H. unfold avg.
  assert (fold_left Num.add vs v = NaN) as ->; [|done].
  apply elem_of_cons in H as [<-|H]; [apply fold_add_NaN|].
  revert v. induction vs as [|x vs IH]; intros v; [by apply elem_of_nil in H|].
  simpl. apply elem_of_cons in H as [<-|H].
  - rewrite add_NaN_r. apply fold_add_NaN.
  - by apply IH.
Qed.

(** X3. A pitch that is [NaN] spoils the mean it is flushed with: when
    the buffer, with the pitch of the sample that changes the position,
    holds a [NaN], the entry written is [NaN]. *)
Theorem not_a_number_spoils_the_mean (width timeStart timeEnd : number)
    (st : Loop.t) (dataPoint : Sample) :
  inRange timeStart timeEnd dataPoint = true →
  (pitchPosition width timeStart timeEnd dataPoint
   !== Loop.previousPosition st) = true →
  NaN ∈ Loop.pitchesForAverage st ++ [pitch dataPoint] →
  avg (Loop.pitchesForAverage st ++ [pitch dataPoint]) = Some NaN
  ∧ ∃ st', iteration width timeStart timeEnd st dataPoint = Some st'
      ∧ Loop.pitches st' !! Loop.previousPosition st = Some NaN.
Proof.
  intros H1 H2 Hnan. split; [by apply avg_NaN|].
  destruct (iteration_flush width timeStart timeEnd st dataPoint H1 H2)
    as (st' & m & -> & Hm & Hp & _).
  exists st'. split; [done|].
  rewrite (avg_NaN _ Hnan) in Hm. injection Hm as <-.
  rewrite Hp. apply lookup_insert_eq.
Qed.

Lemma not_a_number_spoils_the_mean_witness :
  ∃ st', iteration (Num.of_Z 2) (Num.of_Z 0) (Num.of_Z 1) Loop.init
                   (sample (Num.of_Z 0) NaN) = Some st'
    ∧ Loop.pitches st' !! Num.of_Z (-1) = Some NaN.
Proof.
  apply (not_a_number_spoils_the_mean (Num.of_Z 2) (Num.of_Z 0) (Num.of_Z 1)
           Loop.init (sample (Num.of_Z 0) NaN)).
  - vm_compute. reflexivity.
  - vm_compute. reflexivity.
  - vm_compute. left.
Defined.

(** In a window without duration every sample of the range is at the
    position [NaN]: the quotient is [0 / 0]. *)
Lemma pitchPosition_no_duration (w s : Qc) dataPoint :
  inRange (Fin s) (Fin s) dataPoint = true →
  pitchPosition (Fin w) (Fin s) (Fin s) dataPoint = NaN.
Proof.
  intros (t & Ht & Hst & Hts)%inRange_finite.
  assert (t = s) as -> by (by apply Qcle_antisym).
  unfold pitchPosition, duration. rewrite Ht.
  unfold Num.sub, Num.neg, Num.add, Num.mul, Num.div.
  rewrite Qcplus_opp_r, Qcmult_0_r. by rewrite decide_True.
Qed.

(** X4. When the end of the window is its start, no pixel column gets an
    entry: the only keys that [calculatePitches] can leave are -1 and
    [NaN]. *)
Theorem window_without_duration (d : Drawer) (w s : Qc) :
  width d = Fin w →
  pitchTimeStart d = Fin s →
  windowEnd d = Some (Fin s) →
  ∃ d', calculatePitches d = Ok d'
    ∧ ∀ k, is_Some (pitches d' !! k) → k = Num.of_Z (-1) ∨ k = NaN.
Proof.
  intros Hw Hs He.
  destruct (calculatePitches_spec d (Fin s) He) as (st & d' & Hst & Hd' & Hp & _).
  exists d'. split; [done|]. intros k. rewrite Hp, lookup_fmap, fmap_is_Some.
  rewrite Hw, Hs in Hst.
  destruct (loop_keys (Fin w) (Fin s) (Fin s)
              (λ k, k = Num.of_Z (-1) ∨ k = NaN) (pitchArray d) Loop.init)
    as (st' & Hst' & Hkeys & _).
  - intros k' [v Hv]. unfold Loop.init in Hv. simpl in Hv.
    by rewrite lookup_empty in Hv.
  - by left.
  - intros x _ Hx. right. by apply pitchPosition_no_duration.
  - rewrite Hst in Hst'. injection Hst' as <-. apply Hkeys.
Qed.

Lemma window_without_duration_witness :
  ∃ d', calculatePitches
          (drawerOf (inline [sample (Num.of_Z 0) (Num.of_Z 100);
                             sample (Num.of_Z 0) (Num.of_Z 120)]) 300)
        = Ok d'
    ∧ ∀ k, is_Some (pitches d' !! k) → k = Num.of_Z (-1) ∨ k = NaN.
Proof.
  apply (window_without_duration _ (Qc_of_Z 300) (Qc_of_Z 0)); reflexivity.
Defined.

(** X5. [calculatePitches] starts from an empty map and from the series:
    run again on the drawer it has left, it ends in the same way and
    leaves the same drawer. *)
Theorem calculatePitches_again (d : Drawer) :
  calculatePitches (state_of (calculatePitches d)) = calculatePitches d.
Proof.
  unfold calculatePitches. rewrite !calculatePitchTimeEnd_spec.
  change (windowEnd (set_pitches ∅ d)) with (windowEnd d).
  destruct (windowEnd d) as [e|] eqn:He; simpl.
  - destruct (loop (width d) (pitchTimeStart d) e (pitchArray d) Loop.init)
      as [st|] eqn:Hst; simpl.
    + destruct (normalizationRange (params d) st) as [min max] eqn:Hrange.
      simpl. unfold windowEnd in *. simpl. rewrite He. simpl.
      rewrite Hst, Hrange. reflexivity.
    + unfold windowEnd in *. simpl. rewrite He. simpl. by rewrite Hst.
  - unfold windowEnd in *. simpl. by rewrite He.
Qed.

(** X6. [calculatePitches] leaves no entry but at -1 and at positions of
    samples of the range. *)
Theorem keys_are_positions (d d' : Drawer) (e k : number) :
  windowEnd d = Some e →
  calculatePitches d = Ok d' →
  is_Some (pitches d' !! k) →
  k = Num.of_Z (-1)
  ∨ ∃ dataPoint,
      dataPoint ∈ pitchArray d
      ∧ inRange (pitchTimeStart d) e dataPoint = true
      ∧ pitchPosition (width d) (pitchTimeStart d) e dataPoint = k.
Proof.
  intros He Hd'.
  destruct (calculatePitches_spec d e He) as (st & d'' & Hst & Hd'' & Hp & _).
  rewrite Hd' in Hd''. injection Hd'' as <-.
  rewrite Hp, lookup_fmap, fmap_is_Some.
  destruct (loop_keys (width d) (pitchTimeStart d) e
              (λ k, k = Num.of_Z (-1)
                    ∨ ∃ dataPoint,
                        dataPoint ∈ pitchArray d
                        ∧ inRange (pitchTimeStart d) e dataPoint = true
                        ∧ pitchPosition (width d) (pitchTimeStart d) e dataPoint = k)
              (pitchArray d) Loop.init)
    as (st' & Hst' & Hkeys & _).
  - intros k' [v Hv]. unfold Loop.init in Hv. simpl in Hv.
    by rewrite lookup_empty in Hv.
  - by left.
  - intros x Hx Hin. right. by exists x.
  - rewrite Hst in Hst'. injection Hst' as <-. apply Hkeys.
Qed.

Lemma keys_are_positions_witness :
  let d := drawerOf (inline threeColumns) 2 in
  Num.of_Z 1 = Num.of_Z (-1)
  ∨ ∃ dataPoint,
      dataPoint ∈ pitchArray d
      ∧ inRange (pitchTimeStart d) (Num.of_Z 1) dataPoint = true
      ∧ pitchPosition (width d) (pitchTimeStart d) (Num.of_Z 1) dataPoint
        = Num.of_Z 1.
Proof.
  intros d.
  apply (keys_are_positions d (state_of (calculatePitches d)) (Num.of_Z 1)
           (Num.of_Z 1)).
  - reflexivity.
  - reflexivity.
  - vm_compute. eexists. reflexivity.
Defined.

(** ** Further properties of the positions *)

Section Positions.

Variables (w s e : Qc).
Hypothesis window : (s < e)%Qc.
Hypothesis nonneg : (0 ≤ w)%Qc.

(** The rational that [Math.round] is applied to, for a time [t]. *)
Local Abbreviation scaled t := (w * (t - s) / (e - s))%Qc.

Lemma duration_pos : (0 < / (e - s))%Qc.
Proof. apply Qcinv_pos. apply Qclt_minus_iff in window. by unfold Qcminus. Qed.

Lemma scaled_mono t1 t2 : (t1 ≤ t2)%Qc → (scaled t1 ≤ scaled t2)%Qc.
Proof.
  intros H. unfold Qcdiv.
  apply Qcmult_le_mono_nonneg_r; [apply Qclt_le_weak, duration_pos|].
  apply Qcmult_le_mono_nonneg_l; [done|].
  unfold Qcminus. by apply Qcplus_le_mono_r.
Qed.

Lemma scaled_start : scaled s = 0%Qc.
Proof. unfold Qcminus, Qcdiv. rewrite Qcplus_opp_r. ring. Qed.

Lemma scaled_end : scaled e = w.
Proof.
  apply Qcdiv_mult_l. intros E. apply (Qclt_not_eq _ _ window). symmetry.
  apply (inj (λ x, x + - s)%Qc). unfold Qcminus in E. rewrite E. ring.
Qed.

Lemma round_mono (x y : Qc) :
  (x ≤ y)%Qc → (Num.round (Fin x) <=? Num.round (Fin y)) = true.
Proof.
  intros H. unfold Num.round, Num.of_Z. rewrite le_Fin.
  apply bool_decide_eq_true_2.
  apply (proj1 (Z2Qc_inj_le (Qfloor (x + Q2Qc (1 # 2))%Qc)
                            (Qfloor (y + Q2Qc (1 # 2))%Qc))).
  apply Qfloor_resp_le. by apply Qcplus_le_mono_r.
Qed.

Lemma pitchPosition_scaled dataPoint t :
  time dataPoint = Fin t →
  pitchPosition (Fin w) (Fin s) (Fin e) dataPoint = Num.round (Fin (scaled t)).
Proof.
  intros Ht. unfold pitchPosition, duration. rewrite Ht.
  unfold Num.sub, Num.neg, Num.add, Num.mul, Num.div.
  case_decide as H; [|done].
  exfalso. apply (Qclt_not_eq _ _ window). symmetry.
  apply (inj (λ x, x + - s)%Qc). rewrite H. ring.
Qed.

(** X7. In a window of positive duration, for a width that is not
    negative, a later sample is never at an earlier position. *)
Theorem positions_follow_times (dataPoint1 dataPoint2 : Sample) :
  inRange (Fin s) (Fin e) dataPoint1 = true →
  inRange (Fin s) (Fin e) dataPoint2 = true →
  (time dataPoint1 <=? time dataPoint2) = true →
  (pitchPosition (Fin w) (Fin s) (Fin e) dataPoint1
   <=? pitchPosition (Fin w) (Fin s) (Fin e) dataPoint2) = true.
Proof.
  intros (t1 & Ht1 & _)%inRange_finite (t2 & Ht2 & _)%inRange_finite.
  rewrite Ht1, Ht2, le_Fin. intros H%bool_decide_eq_true_1.
  rewrite (pitchPosition_scaled _ _ Ht1), (pitchPosition_scaled _ _ Ht2).
  by apply round_mono, scaled_mono.
Qed.


End Positions.

Lemma positions_follow_times_witness :
  (pitchPosition (Num.of_Z 2) (Num.of_Z 0) (Num.of_Z 1)
                 (sample (Num.frac 1 10) (Num.of_Z 110))
   <=? pitchPosition (Num.of_Z 2) (Num.of_Z 0) (Num.of_Z 1)
                     (sample (Num.frac 6 10) (Num.of_Z 150))) = true.
Proof.
  apply (positions_follow_times (Qc_of_Z 2) (Qc_of_Z 0) (Qc_of_Z 1)).
  - vm_compute. reflexivity.
  - vm_compute. discriminate.
  - vm_compute. reflexivity.
  - vm_compute. reflexivity.
  - vm_compute. reflexivity.
Defined.


(** ** Further properties of the normalisation *)

Lemma clamp_Fin_mono (x y : Qc) :
  (x ≤ y)%Qc →
  (clamp (Fin x) (Num.of_Z 0) (Num.of_Z 1)
   <=? clamp (Fin y) (Num.of_Z 0) (Num.of_Z 1)) = true.
Proof.
  intros H. unfold clamp, Num.gt, Num.of_Z. rewrite !lt_Fin.
  repeat case_bool_decide; rewrite le_Fin; apply bool_decide_eq_true_2;
    qc_order.
Qed.

Lemma normalizePitch_Fin (lo hi v : Qc) :
  lo ≠ hi →
  normalizePitch (Fin lo) (Fin hi) (Fin v)
  = clamp (Fin ((v - lo) / (hi - lo))%Qc) (Num.of_Z 0) (Num.of_Z 1).
Proof.
  intros H. rewrite normalizePitch_clamp. f_equal.
  unfold Num.sub, Num.neg, Num.add, Num.div.
  case_decide as E; [|done].
  exfalso. apply H. symmetry. apply (inj (λ x, x + - lo)%Qc). rewrite E. ring.
Qed.



Lemma normalizePitch_same_ends (m v : Qc) :
  normalizePitch (Fin m) (Fin m) (Fin v)
  = if decide (v < m)%Qc then Fin (Qc_of_Z 0)
    else if decide (m < v)%Qc then Fin (Qc_of_Z 1)
    else NaN.
Proof.
  unfold normalizePitch, Num.sub, Num.neg, Num.add, Num.div.
  rewrite Qcplus_opp_r, decide_True by done.
  unfold Num.inf_times.
  destruct (v + - m ?= 0)%Qc eqn:E.
  - apply Qceq_alt in E.
    assert (v = m) as ->.
    { apply (inj (λ x, x + - m)%Qc). rewrite E. ring. }
    rewrite !decide_False by apply (irreflexivity _). done.
  - apply Qclt_alt in E. rewrite decide_True; [done|].
    apply Qclt_minus_iff. apply Qclt_minus_iff in E.
    by replace (m + - v)%Qc with (0 + - (v + - m))%Qc by ring.
  - apply Qcgt_alt in E.
    assert (m < v)%Qc as Hmv by (by apply Qclt_minus_iff).
    rewrite decide_False, decide_True; [done..|].
    intros H. apply (irreflexivity Qclt m). by trans v.
Qed.

(** X10. A range without width, [min = max], is not set apart: the values
    above it become 1, those below it 0, and the value [min] itself
    becomes [NaN], from [0 / 0]. *)
Theorem normalizePitch_range_without_width (m v : Qc) :
  normalizePitch (Fin m) (Fin m) (Fin v)
  = if decide (v < m)%Qc then Fin (Qc_of_Z 0)
    else if decide (m < v)%Qc then Fin (Qc_of_Z 1)
    else NaN.
Proof. apply normalizePitch_same_ends. Qed.



(** ** Further properties of the parser *)

Lemma split_nonempty sep text : split sep text ≠ [].
Proof.
  destruct text as [|c text]; simpl; [done|].
  case_decide; [done|]. by destruct (split sep text).
Qed.

Lemma lineSample_Some line :
  is_Some (lineSample line) ↔ tabs line = 1%nat.
Proof.
  unfold lineSample, tabs.
  pose proof (split_length TAB line) as H.
  destruct (split TAB line) as [|f0 [|f1 [|f2 fs]]]; simpl in H;
    split; intros H'; try (by destruct H'); try lia; by eexists.
Qed.

(** X12. A line gives a sample when it has one tab, neither less nor
    more: the series has as many samples as the text has lines with one
    tab. *)
Theorem one_sample_per_line_with_one_tab (responseText : string) :
  length (pitchLines responseText)
  = length (filter (λ line, tabs line = 1%nat) (split LF responseText)).
Proof.
  rewrite pitchLines_spec.
  induction (split LF responseText) as [|line lines IH]; [done|].
  change (omap lineSample (line :: lines))
    with (match lineSample line with
          | Some dataPoint => dataPoint :: omap lineSample lines
          | None => omap lineSample lines
          end).
  destruct (lineSample line) as [dataPoint|] eqn:E.
  - rewrite filter_cons_True by (apply lineSample_Some; by rewrite E).
    change (S (length (omap lineSample lines))
            = S (length (filter (λ line, tabs line = 1%nat) lines))).
    by rewrite IH.
  - rewrite filter_cons_False; [done|].
    intros H%lineSample_Some. rewrite E in H. by destruct H.
Qed.

Lemma split_app sep a b :
  split sep (a ++ String sep b)%string = split sep a ++ split sep b.
Proof.
  induction a as [|c a IH]; simpl.
  - by rewrite decide_True.
  - case_decide; [by rewrite IH|].
    rewrite IH. destruct (split sep a) as [|f fs] eqn:E; [|done].
    by destruct (split_nonempty sep a).
Qed.

(** X13. The lines are read one by one and in their order: the series
    of two texts joined by a line feed is the series of the first
    followed by the series of the second. *)
Theorem pitchLines_of_joined_texts (text1 text2 : string) :
  pitchLines (text1 ++ String LF text2)%string
  = pitchLines text1 ++ pitchLines text2.
Proof. by rewrite !pitchLines_spec, split_app, omap_app. Qed.

(** A carriage return at the end of a string is not read by
    [parseFloat]. *)
Lemma digits_snoc u acc n :
  ParseFloat.digits (u ++ String CR "")%string acc n
  = let '(v, k, r) := ParseFloat.digits u acc n in
    (v, k, (r ++ String CR "")%string).
Proof.
  revert acc n. induction u as [|c u IH]; intros acc n; [done|].
  simpl. destruct (ParseFloat.digit c); [apply IH|done].
Qed.

Lemma sign_snoc x :
  ParseFloat.sign (x ++ String CR "")%string
  = ((ParseFloat.sign x).1, ((ParseFloat.sign x).2 ++ String CR "")%string).
Proof.
  destruct x as [|c x]; [done|].
  by destruct c as [[] [] [] [] [] [] [] []].
Qed.

Lemma exponent_snoc r :
  ParseFloat.exponent (r ++ String CR "")%string = ParseFloat.exponent r.
Proof.
  destruct r as [|c r]; [done|].
  change (String c r ++ String CR "")%string
    with (String c (r ++ String CR ""))%string.
  unfold ParseFloat.exponent.
  destruct c as [[] [] [] [] [] [] [] []]; try reflexivity;
    rewrite sign_snoc; destruct (ParseFloat.sign r) as [negative r']; simpl;
    rewrite digits_snoc; by destruct (ParseFloat.digits r' 0 0) as [[v k] rest].
Qed.

Lemma prefix_snoc p u :
  CR ∉ list_ascii_of_string p →
  String.prefix p (u ++ String CR "")%string = String.prefix p u.
Proof.
  revert u. induction p as [|a p IH]; intros u Hp; [by destruct u|].
  simpl in Hp. apply not_elem_of_cons in Hp as [Ha Hp].
  destruct u as [|b u]; simpl.
  - destruct (ascii_dec a CR); [by subst|done].
  - destruct (ascii_dec a b); [by apply IH|done].
Qed.

Lemma unsigned_snoc u :
  ParseFloat.unsigned (u ++ String CR "")%string = ParseFloat.unsigned u.
Proof.
  unfold ParseFloat.unsigned.
  rewrite prefix_snoc by compute_done.
  destruct (String.prefix "Infinity" u); [done|].
  rewrite digits_snoc.
  destruct (ParseFloat.digits u 0 0) as [[int ni] r].
  destruct r as [|c r]; [done|].
  change (String c r ++ String CR "")%string
    with (String c (r ++ String CR ""))%string.
  destruct c as [[] [] [] [] [] [] [] []];
    try (by rewrite <-(exponent_snoc (String _ r)));
  rewrite digits_snoc; destruct (ParseFloat.digits r int 0) as [[m nf] r''];
  by rewrite exponent_snoc.
Qed.

Lemma trim_left_snoc text :
  ParseFloat.trim_left (text ++ String CR "")%string
  = match ParseFloat.trim_left text with
    | EmptyString => EmptyString
    | t => (t ++ String CR "")%string
    end.
Proof.
  induction text as [|c text IH]; [done|].
  simpl. by destruct (ParseFloat.is_space c).
Qed.

Lemma parseFloat_snoc text :
  parseFloat (text ++ String CR "")%string = parseFloat text.
Proof.
  unfold parseFloat, ParseFloat.parseFloat. rewrite trim_left_snoc.
  destruct (ParseFloat.trim_left text) as [|c t]; [done|].
  rewrite sign_snoc. destruct (ParseFloat.sign (String c t)) as [negative t'].
  simpl. by rewrite unsigned_snoc.
Qed.

Lemma split_snoc sep c line :
  c ≠ sep →
  split sep (line ++ String c "")%string = snocLast c (split sep line).
Proof.
  intros Hc. induction line as [|b line IH]; simpl.
  - by rewrite decide_False.
  - pose proof (split_nonempty sep line) as Hne.
    case_decide.
    + rewrite IH. by destruct (split sep line).
    + rewrite IH. by destruct (split sep line) as [|f [|f' fs]].
Qed.

Lemma lineSample_snoc line :
  lineSample (line ++ String CR "")%string = lineSample line.
Proof.
  unfold lineSample. rewrite split_snoc by done.
  destruct (split TAB line) as [|f0 [|f1 [|f2 fs]]]; try done.
  - simpl. by rewrite parseFloat_snoc.
  - simpl. by destruct fs.
Qed.

Lemma split_crlf text :
  Forall2 (λ line' line, line' = line ∨ line' = (line ++ String CR "")%string)
          (split LF (crlf text)) (split LF text).
Proof.
  induction text as [|c text IH]; simpl.
  { constructor; [by left|constructor]. }
  case_decide as Hc.
  - simpl. constructor; [by right|done].
  - simpl. rewrite decide_False by done.
    destruct IH as [|f' f fs' fs Hf Hfs]; [constructor; [by left|constructor]|].
    constructor; [|done].
    destruct Hf as [->| ->]; [by left|by right].
Qed.

(** X14. A file with the line ends of Windows gives the series of the
    same file with line feeds alone: the carriage return left at the
    end of a line is not read by [parseFloat], and is no field. *)
Theorem carriage_returns_do_not_count (responseText : string) :
  pitchLines (crlf responseText) = pitchLines responseText.
Proof.
  rewrite !pitchLines_spec.
  induction (split_crlf responseText) as [|l' l ls' ls Hl _ IH]; [done|].
  change (omap lineSample (l' :: ls'))
    with (match lineSample l' with
          | Some dataPoint => dataPoint :: omap lineSample ls'
          | None => omap lineSample ls'
          end).
  change (omap lineSample (l :: ls))
    with (match lineSample l with
          | Some dataPoint => dataPoint :: omap lineSample ls
          | None => omap lineSample ls
          end).
  rewrite IH. destruct Hl as [->| ->]; [done|]. by rewrite lineSample_snoc.
Qed.

(** ** Further properties of the loader and of the draw requests *)

Lemma initDrawer_from_file o d :
  Options.pitchArray o = None →
  pitchArrayLoaded (initDrawer o d) = false
  ∧ handlers (initDrawer o d) = handlers d
  ∧ fired (initDrawer o d) = fired d
  ∧ painted (initDrawer o d) = painted d
  ∧ requests (initDrawer o d) = requests d ++ [Options.pitchFileUrl o]
  ∧ params (initDrawer o d) = extend (params d) o
  ∧ width (initDrawer o d) = width d.
Proof.
  intros H. unfold initDrawer. rewrite H.
  destruct o as [arr url ts [te|] nt mn mx]; simpl; [done|].
  by destruct (Params.pitchTimeEnd (params d)).
Qed.

Lemma fetchCompleted_200 text d :
  handlers d = [] →
  fetchCompleted 200 text d
  = Ok (set_fired (fired d ++ ["pitch_array_loaded"%string])
          (set_pitchArrayLoaded true (set_pitchArray (pitchLines text) d))).
Proof.
  intros H. unfold fetchCompleted, onLoad, onPitchArrayLoaded, fireEvent.
  simpl. by rewrite H.
Qed.

(** X15. A response of status 200 without a line of two fields loads an
    empty series.  When no [pitchTimeEnd] was given, every draw request
    that follows ends in the TypeError of the empty series, and nothing
    of the pitch is painted. *)
Theorem file_without_samples (o : Options.t) (responseText : string)
    (a : DrawArgs) :
  Options.pitchArray o = None →
  Options.pitchTimeEnd o = None →
  pitchLines responseText = [] →
  ∃ d1 d2,
    fetchCompleted 200 responseText (initDrawer o CanvasPitch) = Ok d1
    ∧ pitchArrayLoaded d1 = true
    ∧ pitchArray d1 = []
    ∧ drawPeaks a d1 = Throw TypeError d2
    ∧ painted d2 = [].
Proof.
  intros Harr Hend Hlines.
  destruct (initDrawer_from_file o CanvasPitch Harr)
    as (_ & Hh & _ & Hp & _ & Hparams & _).
  rewrite fetchCompleted_200 by done. eexists _, _.
  split; [done|]. split; [done|]. split; [done|].
  unfold drawPeaks. simpl. rewrite calculatePitches_throws.
  - split; [done|]. simpl. by rewrite Hp.
  - unfold windowEnd. simpl. rewrite Hparams, Hlines. simpl. by rewrite Hend.
Qed.

Lemma file_without_samples_witness :
  ∃ d1 d2,
    fetchCompleted 200 "garbage" (initDrawer (fromFile "pitch.txt") CanvasPitch)
    = Ok d1
    ∧ pitchArrayLoaded d1 = true
    ∧ pitchArray d1 = []
    ∧ drawPeaks {| peaks := []; length_ := Num.of_Z 300;
                   start := Num.of_Z 0; end_ := Num.of_Z 300 |} d1
      = Throw TypeError d2
    ∧ painted d2 = [].
Proof.
  apply (file_without_samples (fromFile "pitch.txt") "garbage"); reflexivity.
Defined.



Lemma drawPeaks_pending calls d :
  pitchArrayLoaded d = false →
  ∃ d',
    foldl (λ o a, o >>=! drawPeaks a) (Ok d) calls = Ok d'
    ∧ handlers d'
      = handlers d ++ ((λ a, ("pitch-array-loaded"%string, a)) <$> calls)
    ∧ pitchArrayLoaded d' = false
    ∧ painted d' = painted d
    ∧ requests d' = requests d
    ∧ fired d' = fired d
    ∧ width d' = width d.
Proof.
  revert d. induction calls as [|a calls IH]; intros d Hl; simpl.
  { exists d. by rewrite app_nil_r. }
  unfold drawPeaks at 2. rewrite Hl.
  destruct (IH (on "pitch-array-loaded" a d) Hl) as (d' & -> & Hh & ?).
  exists d'. split; [done|]. split; [|done].
  rewrite Hh. simpl. by rewrite <-app_assoc.
Qed.

(** X17. Without an inline series, [initDrawer] sends one request, for
    the URL it was given or for none, and until the series is there the
    draw requests are kept as handlers, one for each request and in
    their order; nothing is painted and the width is not set. *)
Theorem draw_requests_wait_in_order (o : Options.t) (calls : list DrawArgs) :
  Options.pitchArray o = None →
  ∃ d,
    foldl (λ o a, o >>=! drawPeaks a) (Ok (initDrawer o CanvasPitch)) calls
    = Ok d
    ∧ handlers d = (λ a, ("pitch-array-loaded"%string, a)) <$> calls
    ∧ requests d = [Options.pitchFileUrl o]
    ∧ pitchArrayLoaded d = false
    ∧ painted d = []
    ∧ width d = Num.of_Z 0.
Proof.
  intros Harr.
  destruct (initDrawer_from_file o CanvasPitch Harr)
    as (Hl & Hh & _ & Hp & Hr & _ & Hw0).
  destruct (drawPeaks_pending calls (initDrawer o CanvasPitch) Hl)
    as (d & Hd & Hh' & Hl' & Hp' & Hr' & _ & Hw).
  exists d. split; [done|].
  rewrite Hh', Hh, Hr', Hr, Hp', Hp, Hw, Hw0. by repeat split.
Qed.

Lemma draw_requests_wait_in_order_witness :
  ∃ d,
    foldl (λ o a, o >>=! drawPeaks a)
          (Ok (initDrawer Options.empty CanvasPitch))
          [ {| peaks := []; length_ := Num.of_Z 300;
               start := Num.of_Z 0; end_ := Num.of_Z 300 |};
            {| peaks := []; length_ := Num.of_Z 600;
               start := Num.of_Z 0; end_ := Num.of_Z 600 |} ]
    = Ok d
    ∧ length (handlers d) = 2%nat
    ∧ requests d = [None].
Proof.
  destruct (draw_requests_wait_in_order Options.empty
              [ {| peaks := []; length_ := Num.of_Z 300;
                   start := Num.of_Z 0; end_ := Num.of_Z 300 |};
                {| peaks := []; length_ := Num.of_Z 600;
                   start := Num.of_Z 0; end_ := Num.of_Z 600 |} ])
    as (d & Hd & Hh & Hr & _).
  - reflexivity.
  - exists d. split; [exact Hd|]. split; [|exact Hr].
    rewrite Hh. reflexivity.
Defined.

(** X18. [extend] writes the options of the caller into the object of
    the defaults, which the next [initDrawer] starts from: an option that
    the second caller leaves out keeps the value of the first.  So a
    [pitchTimeEnd] given once is the end of the window of a later series
    that gives none, whatever the time of its last sample. *)
Theorem options_stay_for_the_next_initDrawer (o1 o2 : Options.t) (d : Drawer)
    (e : number) :
  Options.pitchTimeEnd o1 = Some e →
  Options.pitchTimeEnd o2 = None →
  params (initDrawer o2 (initDrawer o1 d)) = extend (extend (params d) o1) o2
  ∧ windowEnd (initDrawer o2 (initDrawer o1 d)) = Some e
  ∧ pitchTimeEnd (initDrawer o2 (initDrawer o1 d)) = e
  ∧ (Options.pitchNormalizeTo o2 = None →
     Params.pitchNormalizeTo (params (initDrawer o2 (initDrawer o1 d)))
     = Params.pitchNormalizeTo (params (initDrawer o1 d))).
Proof.
  intros H1 H2.
  assert (∀ o d', params (initDrawer o d') = extend (params d') o) as Hparams.
  { intros o d'. unfold initDrawer.
    by destruct (Params.pitchTimeEnd _), (Options.pitchArray o). }
  assert (Params.pitchTimeEnd (extend (extend (params d) o1) o2) = Some e) as He.
  { simpl. by rewrite H2, H1. }
  split; [by rewrite !Hparams|]. split; [|split].
  - unfold windowEnd. by rewrite !Hparams, He.
  - assert (∀ o d', Params.pitchTimeEnd (extend (params d') o) = Some e →
                    pitchTimeEnd (initDrawer o d') = e) as Hend.
    { intros o d' H. unfold initDrawer.
      change (params (set_params (extend (params d') o) d'))
        with (extend (params d') o).
      change (params (set_pitchTimeStart _ (set_params (extend (params d') o) d')))
        with (extend (params d') o).
      rewrite H. by destruct (Options.pitchArray o). }
    apply Hend. by rewrite Hparams.
  - intros Hn. rewrite !Hparams. simpl. by rewrite Hn.
Qed.

Lemma options_stay_for_the_next_initDrawer_witness :
  windowEnd (initDrawer (inline threeColumns)
               (initDrawer (inlineUntil twoThenOne (Num.frac 1 2)) CanvasPitch))
  = Some (Num.frac 1 2).
Proof.
  apply (options_stay_for_the_next_initDrawer
           (inlineUntil twoThenOne (Num.frac 1 2)) (inline threeColumns)
           CanvasPitch (Num.frac 1 2)); reflexivity.
Defined.

(** ** The rows of the canvas *)

Lemma orZero_Fin (x : Qc) : orZero (Fin x) = Fin x.
Proof.
  unfold orZero, truthy. case_bool_decide as H; simpl; [|done].
  rewrite H. unfold Num.of_Z. f_equal. by apply Qc_is_canon.
Qed.

Lemma rowHeight_Fin (cv : Canvas.t) (h r : Qc) :
  Canvas.height cv = Fin h →
  Canvas.pixelRatio cv = Fin r →
  rowHeight cv = Fin (h * r / Qc_of_Z 2).
Proof.
  intros Hh Hr. unfold rowHeight. rewrite Hh, Hr.
  unfold Num.mul, Num.div, Num.of_Z. case_decide as E; [|done].
  by vm_compute in E.
Qed.

Lemma offsetY_Fin (cv : Canvas.t) (h r c : Qc) :
  Canvas.height cv = Fin h →
  Canvas.pixelRatio cv = Fin r →
  offsetY cv (Fin c) = Fin (h * r / Qc_of_Z 2 * c).
Proof.
  intros Hh Hr. unfold offsetY. rewrite (rowHeight_Fin _ _ _ Hh Hr).
  apply orZero_Fin.
Qed.

Lemma pitchY_Fin (cv : Canvas.t) (h r c P q : Qc) :
  Canvas.height cv = Fin h →
  Canvas.pixelRatio cv = Fin r →
  Canvas.pitchPointHeight cv = Fin P →
  pitchY cv (Fin c) (Fin q)
  = Fin (h * r / Qc_of_Z 2 * c + (h * r / Qc_of_Z 2 - P)
         - q * (h * r / Qc_of_Z 2 - P)).
Proof.
  intros Hh Hr HP. unfold pitchY.
  rewrite (offsetY_Fin _ _ _ _ Hh Hr), (rowHeight_Fin _ _ _ Hh Hr), HP.
  reflexivity.
Qed.





(** ** The hull of [drawWave] *)

Lemma reflectedPeaks_from (reflected peaks : list number) :
  foldl (λ reflected peak, reflected ++ [peak; Num.neg peak]) reflected peaks
  = reflected ++ reflectedPeaks peaks.
Proof.
  unfold reflectedPeaks. revert reflected.
  induction peaks as [|p peaks IH] using rev_ind; intros reflected.
  - by rewrite app_nil_r.
  - rewrite !foldl_app. simpl. rewrite IH. by rewrite <-app_assoc.
Qed.

Lemma reflectedPeaks_cons (p : number) (peaks : list number) :
  reflectedPeaks (p :: peaks) = p :: Num.neg p :: reflectedPeaks peaks.
Proof. unfold reflectedPeaks at 1. simpl. by rewrite reflectedPeaks_from. Qed.

Lemma reflectedPeaks_lookup (peaks : list number) (n : nat) :
  reflectedPeaks peaks !! (2 * n)%nat = peaks !! n
  ∧ reflectedPeaks peaks !! S (2 * n) = Num.neg <$> peaks !! n.
Proof.
  revert n. induction peaks as [|p peaks IH]; intros n; [done|].
  rewrite reflectedPeaks_cons. destruct n as [|n]; [done|].
  replace (2 * S n)%nat with (S (S (2 * n))) by lia. simpl. apply IH.
Qed.

Lemma reflectedPeaks_length (peaks : list number) :
  length (reflectedPeaks peaks) = (2 * length peaks)%nat.
Proof.
  induction peaks as [|p peaks IH]; [done|].
  rewrite reflectedPeaks_cons. simpl. lia.
Qed.

Lemma peakAt_reflected (peaks : list number) (i : Z) :
  peakAt (reflectedPeaks peaks) (2 * i) = peakAt peaks i
  ∧ peakAt (reflectedPeaks peaks) (2 * i + 1) = Num.neg (peakAt peaks i).
Proof.
  unfold peakAt. destruct (Z.ltb_spec i 0) as [Hi|Hi].
  - rewrite !(proj2 (Z.ltb_lt _ _)) by lia. done.
  - rewrite !(proj2 (Z.ltb_ge _ _)) by lia.
    replace (Z.to_nat (2 * i)) with (2 * Z.to_nat i)%nat by lia.
    replace (Z.to_nat (2 * i + 1)) with (S (2 * Z.to_nat i)) by lia.
    destruct (reflectedPeaks_lookup peaks (Z.to_nat i)) as [-> ->].
    by destruct (peaks !! Z.to_nat i).
Qed.

Lemma inf_times_neg (negative : bool) (x : Qc) :
  Num.inf_times negative (- x) = Num.neg (Num.inf_times negative x).
Proof.
  unfold Num.inf_times. destruct (x ?= 0)%Qc eqn:E.
  - apply Qceq_alt in E. subst x. by destruct negative.
  - apply Qclt_alt in E.
    assert (- x > 0)%Qc as H by (qc_to_q; lra).
    rewrite (proj1 (Qcgt_alt _ _) H). by destruct negative.
  - apply Qcgt_alt in E.
    assert (- x < 0)%Qc as H by (qc_to_q; lra).
    rewrite (proj1 (Qclt_alt _ _) H). by destruct negative.
Qed.

Lemma div_neg_l (a b : number) : Num.neg a / b = Num.neg (a / b).
Proof.
  destruct a as [| | |x], b as [| | |y]; simpl; try done;
    try (by case_decide); try (f_equal; by apply Qc_is_canon).
  destruct (decide (y = 0)%Qc); [apply inf_times_neg|].
  simpl. f_equal. unfold Qcdiv. ring.
Qed.

Lemma mul_neg_l (a b : number) : Num.neg a * b = Num.neg (a * b).
Proof.
  destruct a as [| | |x], b as [| | |y]; simpl; try done;
    rewrite ?inf_times_neg; unfold Num.inf_times;
    try (by destruct (y ?= 0)%Qc); try (by destruct (x ?= 0)%Qc).
  f_equal. ring.
Qed.

Lemma Qfloor_opp_half (x x' : Q) :
  (x + x' == 1)%Q →
  (Qfloor x' = - Qfloor x ∨ Qfloor x' = - Qfloor x + 1)%Z.
Proof.
  intros H.
  pose proof (Qfloor_le x) as H1. pose proof (Qlt_floor x) as H2.
  pose proof (Qfloor_le x') as H3. pose proof (Qlt_floor x') as H4.
  rewrite inject_Z_plus in H2, H4.
  assert (inject_Z (Qfloor x') <= inject_Z (1 - Qfloor x))%Q as L1.
  { unfold Z.sub. rewrite inject_Z_plus, inject_Z_opp.
    change (inject_Z 1) with 1%Q in *. lra. }
  assert (inject_Z (- Qfloor x) < inject_Z (Qfloor x' + 1))%Q as L2.
  { rewrite inject_Z_plus, inject_Z_opp.
    change (inject_Z 1) with 1%Q in *. lra. }
  rewrite <-Zle_Qle in L1. rewrite <-Zlt_Qlt in L2. lia.
Qed.

Lemma round_neg (a : number) :
  Num.round (Num.neg a) = Num.neg (Num.round a)
  ∨ Num.round (Num.neg a) = Num.neg (Num.round a) + Num.of_Z 1.
Proof.
  destruct a as [| | |q]; [by left..|].
  unfold Num.neg, Num.round, Num.of_Z, Num.add.
  destruct (Qfloor_opp_half (q + Q2Qc (1 # 2))%Qc (- q + Q2Qc (1 # 2))%Qc)
    as [-> | ->].
  - cbn [this Qcplus Qcopp Q2Qc]. rewrite !Qred_correct. ring.
  - left. by rewrite Z2Qc_inj_opp.
  - right. by rewrite Z2Qc_inj_add, Z2Qc_inj_opp.
Qed.

(** X21. For peaks without a negative value [drawWave] paints the lower
    edge as the mirror of the upper one: at every index of the range the
    path has a point of each edge at the same [x], and the height of the
    lower one is the opposite of the height of the upper one, or one
    more, as [Math.round] sends a tie up on both sides. *)
Theorem lower_edge_mirrors_the_upper_edge
    (util_max util_min : list number → number) (cv : Canvas.t)
    (width : number) (peaks : list number) (channelIndex : number)
    (start end_ i : Z) :
  hasMinValues peaks = false →
  (start ≤ i < end_)%Z →
  ∃ absmax x h h' : number,
    h = Num.round (peakAt peaks i / absmax * (rowHeight cv / Num.of_Z 2))
    ∧ LineTo x (rowHeight cv / Num.of_Z 2 - h + offsetY cv channelIndex)
      ∈ wavePath util_max util_min cv width peaks channelIndex start end_
    ∧ LineTo x (rowHeight cv / Num.of_Z 2 - h' + offsetY cv channelIndex)
      ∈ wavePath util_max util_min cv width peaks channelIndex start end_
    ∧ (h' = Num.neg h ∨ h' = Num.neg h + Num.of_Z 1).
Proof.
  intros Hmin Hi. unfold wavePath, wavePeaks. rewrite Hmin.
  destruct (peakAt_reflected peaks i) as [E0 E1].
  assert (i ∈ seqZ start (end_ - start)) as Hin by (apply elem_of_seqZ; lia).
  match goal with
  | |- context [Num.round (peakAt _ (2 * _) / ?a * _)] => exists a
  end.
  eexists _, _, _. split; [reflexivity|]. split; [|split].
  - apply elem_of_app. right. apply elem_of_app. left.
    apply list_elem_of_fmap. exists i. split; [|done].
    cbv zeta. by rewrite E0.
  - apply elem_of_app. right. apply elem_of_app. right.
    apply elem_of_app. left.
    apply list_elem_of_fmap. exists i. split; [reflexivity|].
    by apply elem_of_reverse.
  - cbv zeta. rewrite E1, div_neg_l, mul_neg_l. apply round_neg.
Qed.

Lemma lower_edge_mirrors_the_upper_edge_witness :
  ∃ absmax x h h' : number,
    h = Num.round (peakAt [Num.frac 1 64] 0 / absmax
                   * (rowHeight exampleCanvas / Num.of_Z 2))
    ∧ LineTo x (rowHeight exampleCanvas / Num.of_Z 2 - h
                + offsetY exampleCanvas (Num.of_Z 1))
      ∈ wavePath (λ _, Num.of_Z 1) (λ _, Num.of_Z 1) exampleCanvas (Num.of_Z 1) [Num.frac 1 64]
          (Num.of_Z 1) 0 1
    ∧ LineTo x (rowHeight exampleCanvas / Num.of_Z 2 - h'
                + offsetY exampleCanvas (Num.of_Z 1))
      ∈ wavePath (λ _, Num.of_Z 1) (λ _, Num.of_Z 1) exampleCanvas (Num.of_Z 1) [Num.frac 1 64]
          (Num.of_Z 1) 0 1
    ∧ (h' = Num.neg h ∨ h' = Num.neg h + Num.of_Z 1).
Proof.
  apply (lower_edge_mirrors_the_upper_edge (λ _, Num.of_Z 1) (λ _, Num.of_Z 1) exampleCanvas
           (Num.of_Z 1) [Num.frac 1 64] (Num.of_Z 1) 0 1 0).
  - reflexivity.
  - lia.
Defined.

Lemma unitPeak_spec (p : number) :
  unitPeak p = true →
  ∃ q : Qc, p = Fin q ∧ (Qc_of_Z (-1) ≤ q)%Qc ∧ (q ≤ Qc_of_Z 1)%Qc.
Proof.
  unfold unitPeak, Num.of_Z. destruct p as [| | |q]; try done.
  rewrite !le_Fin. intros [H1 H2]%andb_true_iff.
  apply bool_decide_eq_true_1 in H1, H2. by exists q.
Qed.

Lemma unitPeak_neg (p : number) :
  unitPeak p = true → unitPeak (Num.neg p) = true.
Proof.
  intros (q & -> & H1 & H2)%unitPeak_spec.
  unfold unitPeak, Num.of_Z, Num.neg. rewrite !le_Fin.
  apply andb_true_iff. split; apply bool_decide_eq_true_2; qc_to_q;
    unfold inject_Z in *; lra.
Qed.

Lemma wavePeaks_unit (peaks : list number) :
  forallb unitPeak peaks = true →
  Forall (λ p, unitPeak p = true) (wavePeaks peaks).
Proof.
  intros H.
  assert (Forall (λ p, unitPeak p = true) peaks) as HF.
  { apply Forall_forall. intros p Hp%list_elem_of_In.
    by apply (proj1 (forallb_forall _ _) H). }
  unfold wavePeaks. destruct (hasMinValues peaks); [done|].
  clear H. induction HF as [|p peaks Hp HF IH]; [constructor|].
  rewrite reflectedPeaks_cons. repeat constructor; [done| |done].
  by apply unitPeak_neg.
Qed.

Lemma peakAt_unit (peaks : list number) (j : Z) :
  Forall (λ p, unitPeak p = true) peaks →
  (0 ≤ j < Z.of_nat (length peaks))%Z →
  unitPeak (peakAt peaks j) = true.
Proof.
  intros HF Hj. unfold peakAt. rewrite (proj2 (Z.ltb_ge _ _)) by lia.
  destruct (lookup_lt_is_Some_2 peaks (Z.to_nat j)) as [p Hp]; [lia|].
  rewrite Hp. simpl. by apply (Forall_lookup_1 _ _ _ _ HF Hp).
Qed.

Lemma wave_point_in_row (hh top p : Qc) :
  (0 ≤ hh)%Qc →
  (Qc_of_Z (-1) ≤ p)%Qc →
  (p ≤ Qc_of_Z 1)%Qc →
  ∃ yq : Qc,
    Fin hh - Num.round (Fin p / Num.of_Z 1 * Fin hh) + Fin top = Fin yq
    ∧ (top - Q2Qc (1 # 2) ≤ yq)%Qc
    ∧ (yq ≤ top + (hh + hh) + Q2Qc (1 # 2))%Qc.
Proof.
  intros Hh H1 H2. rewrite div_1.
  unfold Num.mul, Num.round, Num.of_Z, Num.sub, Num.neg, Num.add.
  eexists. split; [reflexivity|].
  pose proof (Qfloor_le (p * hh + Q2Qc (1 # 2))%Qc) as F1.
  pose proof (Qlt_floor (p * hh + Q2Qc (1 # 2))%Qc) as F2.
  rewrite inject_Z_plus in F2.
  revert F1 F2. generalize (Qfloor (p * hh + Q2Qc (1 # 2))%Qc). intros n F1 F2.
  qc_to_q. change (inject_Z (-1)) with (-1)%Q in *.
  change (inject_Z 1) with 1%Q in *.
  split; nra.
Qed.

(** X22. Without normalisation, for peaks between -1 and 1 and indices
    within the array, every point of the hull of [drawWave] lies in the
    row of the channel, up to the half pixel of the rounding of the
    heights. *)
Theorem wave_stays_in_its_row
    (util_max util_min : list number → number) (cv : Canvas.t)
    (width : number) (peaks : list number) (h r c : Qc)
    (start end_ : Z) (x y : number) :
  Canvas.height cv = Fin h →
  Canvas.pixelRatio cv = Fin r →
  Canvas.normalize cv = false →
  (0 ≤ h * r)%Qc →
  forallb unitPeak peaks = true →
  (0 ≤ start)%Z →
  (2 * end_ ≤ Z.of_nat (length (wavePeaks peaks)))%Z →
  LineTo x y ∈ wavePath util_max util_min cv width peaks (Fin c) start end_ →
  ∃ top yq : Qc,
    offsetY cv (Fin c) = Fin top
    ∧ y = Fin yq
    ∧ (top - Q2Qc (1 # 2) ≤ yq)%Qc
    ∧ (yq ≤ top + h * r / Qc_of_Z 2 + Q2Qc (1 # 2))%Qc.
Proof.
  intros Hh Hr Hn Hpos Hunit Hstart Hend.
  pose proof (wavePeaks_unit _ Hunit) as HF.
  unfold wavePath. rewrite Hn.
  fold (offsetY cv (Fin c)).
  rewrite (offsetY_Fin _ _ _ _ Hh Hr), (rowHeight_Fin _ _ _ Hh Hr).
  assert (Fin (h * r / Qc_of_Z 2) / Num.of_Z 2
          = Fin (h * r / Qc_of_Z 2 / Qc_of_Z 2)) as ->.
  { unfold Num.div, Num.of_Z. case_decide as E; [|done]. by vm_compute in E. }
  assert (∀ j, (start ≤ j < end_)%Z → (0 ≤ 2 * j)%Z
               ∧ (2 * j + 1 < Z.of_nat (length (wavePeaks peaks)))%Z) as Hidx
    by (intros j Hj; lia).
  assert (0 ≤ h * r / Qc_of_Z 2 / Qc_of_Z 2)%Qc as Hhh.
  { unfold Qcdiv. revert Hpos. generalize (h * r)%Qc. intros H Hpos.
    assert (0 ≤ / Qc_of_Z 2)%Qc as Hk by (by vm_compute).
    revert Hk. generalize (/ Qc_of_Z 2)%Qc. intros k Hk. qc_to_q. nra. }
  assert (h * r / Qc_of_Z 2 / Qc_of_Z 2 + h * r / Qc_of_Z 2 / Qc_of_Z 2
          = h * r / Qc_of_Z 2)%Qc as Hsum.
  { unfold Qcdiv. generalize (h * r * / Qc_of_Z 2)%Qc. intros H.
    rewrite <-Qcmult_plus_distr_r.
    assert (/ Qc_of_Z 2 + / Qc_of_Z 2 = 1)%Qc as ->
      by (apply Qc_is_canon; by vm_compute).
    ring. }
  assert (∀ p, unitPeak p = true →
    ∃ yq : Qc,
      Fin (h * r / Qc_of_Z 2 / Qc_of_Z 2)
      - Num.round (p / Num.of_Z 1 * Fin (h * r / Qc_of_Z 2 / Qc_of_Z 2))
      + Fin (h * r / Qc_of_Z 2 * c) = Fin yq
      ∧ (h * r / Qc_of_Z 2 * c - Q2Qc (1 # 2) ≤ yq)%Qc
      ∧ (yq ≤ h * r / Qc_of_Z 2 * c + h * r / Qc_of_Z 2 + Q2Qc (1 # 2))%Qc)
    as Hpoint.
  { intros p (q & -> & H1 & H2)%unitPeak_spec.
    destruct (wave_point_in_row _ (h * r / Qc_of_Z 2 * c)%Qc _ Hhh H1 H2)
      as (yq & E & B1 & B2).
    rewrite Hsum in B2. by exists yq. }
  intros [Hin|[Hin|[Hin|Hin]%elem_of_app]%elem_of_app]%elem_of_app.
  - by repeat (apply elem_of_cons in Hin as [Hin|Hin]; [done|]);
      apply elem_of_nil in Hin.
  - apply list_elem_of_fmap in Hin as (i & Heq & Hi%elem_of_seqZ).
    cbv zeta in Heq. injection Heq as -> ->.
    destruct (Hpoint (peakAt (wavePeaks peaks) (2 * i))) as (yq & E & B);
      [apply peakAt_unit; [done|]; specialize (Hidx i); lia|].
    by exists (h * r / Qc_of_Z 2 * c)%Qc, yq.
  - apply list_elem_of_fmap in Hin as (i & Heq & Hi%elem_of_reverse%elem_of_seqZ).
    cbv zeta in Heq. injection Heq as -> ->.
    destruct (Hpoint (peakAt (wavePeaks peaks) (2 * i + 1))) as (yq & E & B);
      [apply peakAt_unit; [done|]; specialize (Hidx i); lia|].
    by exists (h * r / Qc_of_Z 2 * c)%Qc, yq.
  - by repeat (apply elem_of_cons in Hin as [Hin|Hin]; [done|]);
      apply elem_of_nil in Hin.
Qed.

Lemma wave_stays_in_its_row_witness :
  ∃ top yq : Qc,
    offsetY exampleCanvas (Num.of_Z 1) = Fin top
    ∧ Num.of_Z 80 = Fin yq
    ∧ (top - Q2Qc (1 # 2) ≤ yq)%Qc
    ∧ (yq ≤ top + Qc_of_Z 128 * Qc_of_Z 1 / Qc_of_Z 2 + Q2Qc (1 # 2))%Qc.
Proof.
  apply (wave_stays_in_its_row (λ _, Num.of_Z 1) (λ _, Num.of_Z 1)
           exampleCanvas (Num.of_Z 2) [Num.frac 1 2; Num.of_Z 1]
           (Qc_of_Z 128) (Qc_of_Z 1) (Qc_of_Z 1) 0 2
           (Num.frac 1 2) (Num.of_Z 80)).
  - reflexivity.
  - reflexivity.
  - reflexivity.
  - vm_compute. discriminate.
  - vm_compute. reflexivity.
  - lia.
  - vm_compute. discriminate.
  - compute_done.
Defined.
